(** * u-root wifi: scan parsing, profile generation and the DHCPv4 lease loop

    A shallow embedding of
      - package [wifi] (iwlist output parsing, [generateConfig]), and
      - [cmds/wifi/wifi.go] ([dhclient4], the renewal-loop variant),
    together with the properties of these functions.

    Go values are represented as follows.
      - [string] and [[]byte] are byte sequences: [string] (a list of 8-bit
        [ascii]) for Go strings, [list ascii] for byte slices that are indexed
        and resliced;
      - [error] is the message of the error ([err.Error()]), [nil] is [None];
      - [map[string]bool] is a [gmap string bool], a missing key reads [false];
      - [int] is a 64-bit two's complement integer, kept as a [Z] that is
        wrapped after every increment;
      - [time.Duration] is a [Z] counting nanoseconds. *)

From Stdlib Require Import ZArith Lia Ascii String List.
From stdpp Require Import base option list gmap strings.

Local Open Scope string_scope.
Local Open Scope list_scope.
Local Open Scope nat_scope.

(** ** Package [strings] and [fmt]: the functions that the code calls *)

Module GoStrings.

(** Characters that cannot be written inside a literal. *)
Definition nl : string := String "010"%char "".
Definition tab : string := String "009"%char "".
Definition dq : string := String "034"%char "".

Definition bytes := list ascii.

(** [[]byte(s)] and [string(b)]. *)
Definition to_bytes (s : string) : bytes := list_ascii_of_string s.
Definition of_bytes (b : bytes) : string := string_of_list_ascii b.

(** [o[lo:hi]] for [lo <= hi <= len(o)]. *)
Definition slice (o : bytes) (lo hi : nat) : bytes := take (hi - lo) (drop lo o).

(** [strings.Split(s, sep)] for a separator of one byte: the pieces between
    the occurrences of [sep], [count sep + 1] of them. *)
Fixpoint split_bytes (sep : ascii) (s : bytes) : list bytes :=
  match s with
  | [] => [[]]
  | c :: s' =>
      if Ascii.eqb c sep then [] :: split_bytes sep s'
      else match split_bytes sep s' with
           | p :: ps => (c :: p) :: ps
           | [] => [[c]]
           end
  end.

Definition Split (s : string) (sep : ascii) : list string :=
  of_bytes <$> split_bytes sep (to_bytes s).

Definition in_cutset (cutset : string) (c : ascii) : bool :=
  existsb (Ascii.eqb c) (to_bytes cutset).

Fixpoint trim_left (cutset : string) (s : bytes) : bytes :=
  match s with
  | c :: s' => if in_cutset cutset c then trim_left cutset s' else s
  | [] => []
  end.

(** [strings.Trim(s, cutset)] for an ASCII cutset: the bytes of the cutset
    are removed at the left end, then at the right end. *)
Definition Trim (s : string) (cutset : string) : string :=
  of_bytes (rev (trim_left cutset (rev (trim_left cutset (to_bytes s))))).

(** What [fmt] prints for operands that no verb consumed. *)
Fixpoint extra_operands (a : list string) : string :=
  match a with
  | [] => ""
  | [x] => "string=" +:+ x
  | x :: a' => "string=" +:+ x +:+ ", " +:+ extra_operands a'
  end.

Definition unused_operands (a : list string) : string :=
  match a with
  | [] => ""
  | _ => "%!(EXTRA " +:+ extra_operands a +:+ ")"
  end.

(** [fmt.Sprintf(format, a...)] for string operands and the verbs [%s] and
    [%v], which print a string (or the message of an error) as it is.  The
    formats of this program use no other verb; any other byte is copied. *)
Fixpoint Sprintf (format : string) (a : list string) : string :=
  match format with
  | "" => unused_operands a
  | String c rest =>
      if Ascii.eqb c "%" then
        match rest with
        | String v rest' =>
            if Ascii.eqb v "s" || Ascii.eqb v "v" then
              match a with
              | x :: a' => x +:+ Sprintf rest' a'
              | [] => "%!" +:+ String v "(MISSING)" +:+ Sprintf rest' []
              end
            else String c (String v (Sprintf rest' a))
        | "" => "%!(NOVERB)" +:+ unused_operands a
        end
      else String c (Sprintf rest a)
  end.

End GoStrings.

(** ** Package [regexp]: the patterns of the scan parser

    The patterns of the program are sequences of the atoms below.  Matching
    is leftmost-first, as in Go: a match starts at the first position where
    one exists, and among the matches at that position the one a backtracking
    search finds first is taken ([\s*] and [.*] are greedy, the left
    alternative is preferred).  The input is matched byte by byte; [\s] and
    [\n] are ASCII, so this agrees with Go's rune-wise matching on the
    patterns used here. *)

Module Regexp.
Import GoStrings.

Inductive atom :=
| BeginLine                 (* ^ under the flag m *)
| EndLine                   (* $ under the flag m *)
| Spaces                    (* \s* *)
| AnyStar                   (* .* where . is any byte but a line feed *)
| Lit (l : string)          (* literal text *)
| Alt (l1 l2 : string).     (* (l1|l2) *)

Definition regexp := list atom.

Definition is_newline (c : ascii) : bool := Ascii.eqb c "010".

(** [\s] is [[\t\n\f\r ]]. *)
Definition is_space (c : ascii) : bool :=
  Ascii.eqb c "009" || Ascii.eqb c "010" || Ascii.eqb c "012"
  || Ascii.eqb c "013" || Ascii.eqb c " ".

(** [prev] is the byte before the current position, [None] at the start of
    the text. *)
Definition at_begin_line (prev : option ascii) : bool :=
  match prev with
  | None => true
  | Some c => is_newline c
  end.

Definition at_end_line (s : bytes) : bool :=
  match s with
  | [] => true
  | c :: _ => is_newline c
  end.

(** Greedy repetition of a byte class in front of the continuation [k]:
    the longest run is tried first, then shorter ones. *)
Fixpoint star (cls : ascii → bool) (k : option ascii → bytes → option nat)
    (prev : option ascii) (s : bytes) : option nat :=
  match s with
  | c :: s' =>
      if cls c then
        match star cls k (Some c) s' with
        | Some n => Some (S n)
        | None => k prev s
        end
      else k prev s
  | [] => k prev []
  end.

(** The literal [l] at the front of [s]: the last byte read and the rest. *)
Fixpoint literal (l : bytes) (prev : option ascii) (s : bytes)
    : option (option ascii * bytes) :=
  match l with
  | [] => Some (prev, s)
  | c :: l' =>
      match s with
      | d :: s' => if Ascii.eqb c d then literal l' (Some d) s' else None
      | [] => None
      end
  end.

(** The number of bytes of the match of [re] that starts here, if any. *)
Fixpoint match_here (re : regexp) (prev : option ascii) (s : bytes) : option nat :=
  match re with
  | [] => Some 0
  | BeginLine :: re' => if at_begin_line prev then match_here re' prev s else None
  | EndLine :: re' => if at_end_line s then match_here re' prev s else None
  | Spaces :: re' => star is_space (match_here re') prev s
  | AnyStar :: re' => star (λ c, negb (is_newline c)) (match_here re') prev s
  | Lit l :: re' =>
      '(prev', s') ← literal (to_bytes l) prev s;
      n ← match_here re' prev' s';
      Some (String.length l + n)
  | Alt l1 l2 :: re' =>
      let try (l : string) :=
        '(prev', s') ← literal (to_bytes l) prev s;
        n ← match_here re' prev' s';
        Some (String.length l + n) in
      match try l1 with
      | Some n => Some n
      | None => try l2
      end
  end.

(** The leftmost match at or after the current position [pos]. *)
Fixpoint search (re : regexp) (prev : option ascii) (s : bytes) (pos : nat)
    : option (nat * nat) :=
  match match_here re prev s with
  | Some n => Some (pos, pos + n)
  | None =>
      match s with
      | c :: s' => search re (Some c) s' (S pos)
      | [] => None
      end
  end.

(** The successive matches from [pos] on.  [skip] bytes belong to the last
    match and are passed over; an empty match is kept unless it sits at the
    end of the previous match, and the search resumes one byte further. *)
Fixpoint all_matches (re : regexp) (prev : option ascii) (s : bytes)
    (pos skip : nat) (prevMatchEnd : option nat) : list (nat * nat) :=
  match skip with
  | S skip' =>
      match s with
      | c :: s' => all_matches re (Some c) s' (S pos) skip' prevMatchEnd
      | [] => []
      end
  | O =>
      match match_here re prev s with
      | Some (S m) =>
          (pos, pos + S m) ::
          match s with
          | c :: s' => all_matches re (Some c) s' (S pos) m (Some (pos + S m))
          | [] => []
          end
      | Some O =>
          (if bool_decide (prevMatchEnd = Some pos) then [] else [(pos, pos)]) ++
          match s with
          | c :: s' => all_matches re (Some c) s' (S pos) 0 (Some pos)
          | [] => []
          end
      | None =>
          match s with
          | c :: s' => all_matches re (Some c) s' (S pos) 0 prevMatchEnd
          | [] => []
          end
      end
  end.

(** [re.FindAllIndex(b, -1)]: the [(start, end)] of every match; no match
    is the nil slice, here the empty list. *)
Definition FindAllIndex (re : regexp) (b : bytes) : list (nat * nat) :=
  all_matches re None b 0 0 None.

(** [re.FindAll(b, -1)]: the matched texts. *)
Definition FindAll (re : regexp) (b : bytes) : list bytes :=
  (λ loc, slice b loc.1 loc.2) <$> FindAllIndex re b.

(** [re.FindIndex(b)]: the leftmost match, [None] for nil. *)
Definition FindIndex (re : regexp) (b : bytes) : option (nat * nat) :=
  search re None b 0.

(** [re.Find(b)]: the text of the leftmost match; nil, which [string()]
    turns into the empty string, is the empty list. *)
Definition Find (re : regexp) (b : bytes) : bytes :=
  match FindIndex re b with
  | Some loc => slice b loc.1 loc.2
  | None => []
  end.

End Regexp.

(** ** Package [wifi]: scan parsing and profile generation *)

Module Wifi.
Import GoStrings Regexp.

(** The patterns for the output of iwlist. *)
Definition cellRE : regexp := [BeginLine; Spaces; Lit "Cell"].
Definition essidRE : regexp := [BeginLine; Spaces; Lit "ESSID"; AnyStar].
Definition encKeyOptRE : regexp :=
  [BeginLine; Spaces; Lit "Encryption key:"; Alt "on" "off"; EndLine].
Definition wpa2RE : regexp :=
  [BeginLine; Spaces; Lit "IE: IEEE 802.11i/WPA2 Version 1"; EndLine].
Definition authSuitesRE : regexp :=
  [BeginLine; Spaces; Lit "Authentication Suites "; AnyStar; EndLine].

Inductive SecProto := NoEnc | WpaPsk | WpaEap | NotSupportedProto.

Record WifiOption := { Essid : string; AuthSuite : SecProto }.

(** The run-time panics of [parseIwlistOut]: an index out of range, by the
    expression that raises it, in block [i]. *)
Inductive panic :=
| EssidsIndex (i : nat)           (* essids[i] *)
| EssidFieldIndex (i : nat)       (* strings.Split(string(essids[i]), ":")[1] *)
| EncKeyOptsIndex (i : nat)       (* encKeyOpts[i] *)
| EncKeyOptFieldIndex (i : nat)   (* strings.Split(string(encKeyOpts[i]), ":")[1] *)
| CellsIndex (i : nat)            (* cells[i], cells[i+1] *)
| AuthSuitesFieldIndex (i : nat). (* strings.Split(string(authSuitesRE.Find(..)), ":")[1] *)

Inductive result (A : Type) :=
| Ok (a : A)
| Panic (p : panic).
Global Arguments Ok {A} a.
Global Arguments Panic {A} p.

Global Instance result_ret : MRet result := λ A a, Ok a.
Global Instance result_bind : MBind result := λ A B f m,
  match m with
  | Ok a => f a
  | Panic p => Panic p
  end.

(** [l[i]], which panics when [i] is out of range. *)
Definition index {A} (l : list A) (i : nat) (p : panic) : result A :=
  match l !! i with
  | Some x => Ok x
  | None => Panic p
  end.

(** [knownEssids[essid]]. *)
Definition known (knownEssids : gmap string bool) (essid : string) : bool :=
  default false (knownEssids !! essid).

Definition authSuite_proto (authSuites : string) : SecProto :=
  if String.eqb authSuites "PSK" then WpaPsk
  else if String.eqb authSuites "802.1x" then WpaEap
  else NotSupportedProto.

(** The body of the loop of [parseIwlistOut] for the block [i], on the
    state [(knownEssids, res)]. *)
Definition parse_cell (o : bytes) (cells : list (nat * nat))
    (essids encKeyOpts : list bytes) (i : nat)
    (st : gmap string bool * list WifiOption)
    : result (gmap string bool * list WifiOption) :=
  let '(knownEssids, res) := st in
  line ← index essids i (EssidsIndex i);
  field ← index (Split (of_bytes line) ":") 1 (EssidFieldIndex i);
  let essid := Trim field (dq +:+ nl) in
  if known knownEssids essid then Ok (knownEssids, res)
  else
    let knownEssids := <[essid := true]> knownEssids in
    line ← index encKeyOpts i (EncKeyOptsIndex i);
    field ← index (Split (of_bytes line) ":") 1 (EncKeyOptFieldIndex i);
    let encKeyOpt := Trim field nl in
    if String.eqb encKeyOpt "off" then
      Ok (knownEssids, res ++ [{| Essid := essid; AuthSuite := NoEnc |}])
    else
      cell ← index cells i (CellsIndex i);
      let start := cell.1 in
      end_ ← (if bool_decide (i ≠ List.length cells - 1)
              then next ← index cells (i + 1) (CellsIndex (i + 1)); Ok next.1
              else Ok (List.length o));
      let wpa2SearchArea := slice o start end_ in
      match FindIndex wpa2RE wpa2SearchArea with
      | None =>
          Ok (knownEssids, res ++ [{| Essid := essid; AuthSuite := NotSupportedProto |}])
      | Some l =>
          let authSearchArea := drop l.1 wpa2SearchArea in
          field ← index (Split (of_bytes (Find authSuitesRE authSearchArea)) ":") 1
                    (AuthSuitesFieldIndex i);
          let authSuites := Trim field (nl +:+ " ") in
          Ok (knownEssids,
              res ++ [{| Essid := essid; AuthSuite := authSuite_proto authSuites |}])
      end.

(** [for i := 0; i < len(cells); i++ { ... }], entered at [i] with
    [n = len(cells) - i] rounds to go. *)
Fixpoint parse_loop (o : bytes) (cells : list (nat * nat))
    (essids encKeyOpts : list bytes) (n i : nat)
    (st : gmap string bool * list WifiOption)
    : result (gmap string bool * list WifiOption) :=
  match n with
  | O => Ok st
  | S n' =>
      st' ← parse_cell o cells essids encKeyOpts i st;
      parse_loop o cells essids encKeyOpts n' (S i) st'
  end.

(** [parseIwlistOut(o []byte) []WifiOption]; the nil slice is the empty
    list. *)
Definition parseIwlistOut (o : bytes) : result (list WifiOption) :=
  let cells := FindAllIndex cellRE o in
  let essids := FindAll essidRE o in
  let encKeyOpts := FindAll encKeyOptRE o in
  match cells with
  | [] => Ok []
  | _ =>
      st ← parse_loop o cells essids encKeyOpts (List.length cells) 0 (∅, []);
      Ok st.2
  end.

Definition nopassphrase : string :=
  "network={" +:+ nl +:+
  tab +:+ tab +:+ "ssid=" +:+ dq +:+ "%s" +:+ dq +:+ nl +:+
  tab +:+ tab +:+ "proto=RSN" +:+ nl +:+
  tab +:+ tab +:+ "key_mgmt=NONE" +:+ nl +:+
  tab +:+ "}".

Definition eap : string :=
  "network={" +:+ nl +:+
  tab +:+ tab +:+ "ssid=" +:+ dq +:+ "%s" +:+ dq +:+ nl +:+
  tab +:+ tab +:+ "key_mgmt=WPA-EAP" +:+ nl +:+
  tab +:+ tab +:+ "identity=" +:+ dq +:+ "%s" +:+ dq +:+ nl +:+
  tab +:+ tab +:+ "password=" +:+ dq +:+ "%s" +:+ dq +:+ nl +:+
  tab +:+ "}".

(** [a[i]] under a guard on [len(a)] that makes the index valid. *)
Definition arg (a : list string) (i : nat) : string := nth i a "".

Section GenerateConfig.

(** [passphrase.Run(essid, pass)] of [pkg/wpa/passphrase]: the derived
    pre-shared-key profile, or an error. *)
Variable passphrase_Run : string → string → option string * option string.

(** [generateConfig(a ...string) (conf []byte, err error)]. *)
Definition generateConfig (a : list string) : option string * option string :=
  if (List.length a =? 3)%nat then
    (Some (Sprintf eap [arg a 0; arg a 2; arg a 1]), None)
  else if (List.length a =? 2)%nat then
    match passphrase_Run (arg a 0) (arg a 1) with
    | (_, Some err) =>
        (None, Some (Sprintf "essid: %v, pass: %v : %v" [arg a 0; arg a 1; err]))
    | (conf, None) => (conf, None)
    end
  else if (List.length a =? 1)%nat then
    (Some (Sprintf nopassphrase [arg a 0]), None)
  else
    (None, Some "generateConfig needs 1, 2, or 3 args").

End GenerateConfig.

End Wifi.

(** ** [cmds/wifi]: the DHCPv4 lease loop

    [dhclient4] talks to a DHCP client ([client.Solicit], [client.Renew]) and
    to the operating system ([dhclient.HandlePacket], [time.Sleep]).  A run
    is taken against a script, the list of the answers that these calls will
    receive, in order; it yields the trace of the calls made and the way the
    run ends. *)

Module Dhclient.
Import GoStrings.
Local Open Scope Z_scope.

(** [time.Duration], in nanoseconds. *)
Definition Duration := Z.
Definition Second : Duration := 1000000000.

(** The constants of [dhclient4]. *)
Definition timeout : Duration := 15 * Second.
Definition slop : Duration := 10 * Second.
Definition retry : Z := -1.

(** [i++] on an [int] of 64 bits. *)
Definition wrap_int (z : Z) : Z := (z + 2 ^ 63) mod 2 ^ 64 - 2 ^ 63.

(** A lease of [pkg/dhclient]; of its fields only the lifetime is read. *)
Record Lease := { ValidLifetime : Duration }.

(** An error of the client: its message and whether it is a [net.Error]
    whose [Timeout()] holds. *)
Record client_error := { message : string; is_timeout : bool }.

Inductive ending :=
| Returned (err : option string)  (* return err *)
| Panicked                        (* packet.Leases()[0] without a lease *)
| Blocked                         (* a call that the script does not answer *)
| OutOfFuel.

Section WithPacket.

(** [dhclient.Packet], an interface of [pkg/dhclient], and its method
    [Leases()]. A nil packet is [None]. *)
Context {Packet : Type} (Leases : Packet → list Lease).

(** The answers of the environment. *)
Inductive reply :=
| ClientReply (packet : option Packet) (err : option client_error)
                                  (* of client.Solicit() or client.Renew(packet) *)
| HandleReply (err : option string). (* of dhclient.HandlePacket(iface, packet) *)

(** The calls of a run. *)
Inductive event :=
| Log (msg : string)                      (* log.Printf *)
| Solicit                                 (* client.Solicit() *)
| Renew (packet : option Packet)          (* client.Renew(packet) *)
| HandlePacket (packet : option Packet)   (* dhclient.HandlePacket(iface, packet) *)
| Sleep (d : Duration).                   (* time.Sleep(d) *)

(** [mac] is [iface.Attrs().HardwareAddr] as printed, [name] is
    [iface.Attrs().Name]. *)
Variables (mac name : string).

(** The request of one round of the inner loop, with its log line. *)
Definition request (i : Z) (needsRequest : bool) (packet : option Packet)
    : list event :=
  if needsRequest then
    (if 0 <? i then [Log ("Resending DHCPv4 request..." +:+ nl)] else []) ++ [Solicit]
  else
    (if 0 <? i then [Log ("Resending DHCPv4 renewal" +:+ nl)] else []) ++ [Renew packet].

Definition failure_log (err : client_error) : event :=
  if is_timeout err then Log (Sprintf "%s: timeout contacting DHCP server" [mac])
  else Log (Sprintf "%s: error: %v" [mac; message err]).

(** [for i := 0; i > -1; i++ { ... }], entered at the test of [i].  The
    result is the trace and, when the loop is left, the rest of the
    script with [needsRequest] and [packet]. *)
Fixpoint retries (script : list reply) (i : Z) (needsRequest : bool)
    (packet : option Packet)
    : list event * option (list reply * bool * option Packet) :=
  if -1 <? i then
    match script with
    | ClientReply packet' err :: script' =>
        match err with
        | Some e =>
            let '(tr, r) := retries script' (wrap_int (i + 1)) needsRequest packet' in
            (request i needsRequest packet ++ failure_log e :: tr, r)
        | None => (request i needsRequest packet, Some (script', false, packet'))
        end
    | _ => (request i needsRequest packet, None)
    end
  else ([], Some (script, needsRequest, packet)).

(** [packet.Leases()[0]]. *)
Definition first_lease (packet : option Packet) : option Lease :=
  p ← packet; head (Leases p).

(** The outer [for { ... }], for at most [fuel] rounds. *)
Fixpoint renew_loop (fuel : nat) (script : list reply) (needsRequest : bool)
    (packet : option Packet) : list event * ending :=
  match fuel with
  | O => ([], OutOfFuel)
  | S fuel' =>
      let '(tr, r) := retries script 0 needsRequest packet in
      let tr := Log ("Start getting or renewing DHCPv4 lease" +:+ nl) :: tr in
      match r with
      | Some (HandleReply herr :: script', needsRequest', packet') =>
          let tr := tr ++ [HandlePacket packet'] in
          match herr with
          | Some e => (tr, Returned (Some (Sprintf "error handling pakcet: %v" [e])))
          | None =>
              match first_lease packet' with
              | None => (tr, Panicked)
              | Some lease =>
                  if ValidLifetime lease =? 0 then
                    (tr ++ [Log (Sprintf "%v: server returned infinite lease." [name] +:+ nl)],
                     Returned None)
                  else
                    let '(tr', e) := renew_loop fuel' script' needsRequest' packet' in
                    (tr ++ Sleep (timeout - slop) :: tr', e)
              end
          end
      | _ => (tr, Blocked)
      end
  end.

(** [dhclient4(iface netlink.Link) error].  [newV4] is the error of
    [dhclient.NewV4(iface, timeout, retry)].  Every round of the outer
    loop takes an answer from the script, so one round more than the
    script has answers is enough. *)
Definition dhclient4 (newV4 : option string) (script : list reply)
    : list event * ending :=
  match newV4 with
  | Some err => ([], Returned (Some (Sprintf "error: %v" [err])))
  | None => renew_loop (S (List.length script)) script true None
  end.

End WithPacket.

Global Arguments Log {Packet} msg.
Global Arguments Solicit {Packet}.
Global Arguments Sleep {Packet} d.
Global Arguments HandleReply {Packet} err.

End Dhclient.

(** ** Vocabulary of the statements about the scan parser *)

Module ScanSpec.
Import GoStrings Regexp Wifi.

(** The three sequences that [parseIwlistOut] computes from the text. *)
Definition cells (o : bytes) : list (nat * nat) := FindAllIndex cellRE o.
Definition essids (o : bytes) : list bytes := FindAll essidRE o.
Definition encKeyOpts (o : bytes) : list bytes := FindAll encKeyOptRE o.

(** The SSID that the parser reads for the block [i]: the second
    [:]-separated field of the [i]-th ESSID line, without quotes. *)
Definition essid_of_block (o : bytes) (i : nat) : option string :=
  line ← essids o !! i;
  field ← Split (of_bytes line) ":" !! 1%nat;
  Some (Trim field (dq +:+ nl)).

(** The encryption indicator that the parser reads for the block [i]. *)
Definition encKeyOpt_of_block (o : bytes) (i : nat) : option string :=
  line ← encKeyOpts o !! i;
  field ← Split (of_bytes line) ":" !! 1%nat;
  Some (Trim field nl).

(** The window of the block [i]: from its start to the start of the next
    block, or to the end of the text for the last block. *)
Definition block_window (o : bytes) (i : nat) : bytes :=
  match cells o !! i with
  | Some cell =>
      slice o cell.1 (match cells o !! S i with
                      | Some next => next.1
                      | None => List.length o
                      end)
  | None => []
  end.


(** The block [i] is the first one with the SSID [essid]. *)
Definition first_block (o : bytes) (i : nat) (essid : string) : Prop :=
  essid_of_block o i = Some essid ∧
  ∀ j, j < i → essid_of_block o j ≠ Some essid.

(** The record that the loop body makes of the block [i] when no SSID is
    known yet. *)
Definition block_record (o : bytes) (i : nat) (r : WifiOption) : Prop :=
  ∃ knownEssids,
    parse_cell o (cells o) (essids o) (encKeyOpts o) i (∅, []) = Ok (knownEssids, [r]).

(** What the loop has established when it reaches the block [i]. *)
Definition parsed_up_to (o : bytes) (i : nat) (st : gmap string bool * list WifiOption) : Prop :=
  (∀ e, known st.1 e = true ↔ ∃ j, j < i ∧ essid_of_block o j = Some e) ∧
  (∀ r, r ∈ st.2 ↔ ∃ j, j < i ∧ first_block o j (Essid r) ∧ block_record o j r) ∧
  (∀ j e, j < i → first_block o j e → ∃ r, block_record o j r) ∧
  NoDup (Essid <$> st.2) ∧
  List.length st.2 ≤ i.

(** Scan texts, line by line. *)
Fixpoint unlines (l : list string) : string :=
  match l with
  | [] => ""
  | x :: l' => x +:+ nl +:+ unlines l'
  end.

(** Two blocks named Home: the first open, the second with WPA2 and PSK. *)
Definition scan_home_twice : bytes := to_bytes (unlines [
  "wlan0     Scan completed :";
  "          Cell 01 - Address: 00:11:22:33:44:55";
  "                    Encryption key:off";
  "                    ESSID:" +:+ dq +:+ "Home" +:+ dq;
  "          Cell 02 - Address: 00:11:22:33:44:66";
  "                    Encryption key:on";
  "                    ESSID:" +:+ dq +:+ "Home" +:+ dq;
  "                    IE: IEEE 802.11i/WPA2 Version 1";
  "                        Authentication Suites (1) : PSK"]).


(** An open block between two protected ones. *)
Definition scan_open_between : bytes := to_bytes (unlines [
  "          Cell 01 - Address: 00:11:22:33:44:55";
  "                    Encryption key:on";
  "                    ESSID:" +:+ dq +:+ "Lab" +:+ dq;
  "                    IE: IEEE 802.11i/WPA2 Version 1";
  "                        Authentication Suites (1) : PSK";
  "          Cell 02 - Address: 00:11:22:33:44:66";
  "                    Encryption key:off";
  "                    ESSID:" +:+ dq +:+ "Cafe" +:+ dq;
  "          Cell 03 - Address: 00:11:22:33:44:77";
  "                    Encryption key:on";
  "                    ESSID:" +:+ dq +:+ "Office" +:+ dq;
  "                    IE: IEEE 802.11i/WPA2 Version 1";
  "                        Authentication Suites (1) : 802.1x"]).

(** The profile of an enterprise network: the template [eap] with its
    three fields filled in. *)
Definition enterprise_profile (ssid identity password : string) : string :=
  "network={" +:+ nl +:+
  tab +:+ tab +:+ "ssid=" +:+ dq +:+ ssid +:+ dq +:+ nl +:+
  tab +:+ tab +:+ "key_mgmt=WPA-EAP" +:+ nl +:+
  tab +:+ tab +:+ "identity=" +:+ dq +:+ identity +:+ dq +:+ nl +:+
  tab +:+ tab +:+ "password=" +:+ dq +:+ password +:+ dq +:+ nl +:+
  tab +:+ "}".

End ScanSpec.

(** ** Vocabulary of the statements about the lease loop *)

Module LeaseSpec.
Import GoStrings Dhclient.
Local Open Scope Z_scope.

Section WithPacket.
Context {Packet : Type} (Leases : Packet → list Lease).

(** An answer of the client that reports an error. *)
Definition failed (pe : option Packet * client_error) : reply :=
  ClientReply pe.1 (Some pe.2).

(** The requests of the inner loop. *)
Definition is_request (e : @event Packet) : Prop :=
  match e with
  | Log _ | Solicit | Renew _ => True
  | HandlePacket _ | Sleep _ => False
  end.

(** The time spent asleep between the application of a lease and the
    next renewal: for every [Renew] of the trace that is the first one
    after a [HandlePacket], the lifetime of the lease applied and the sum
    of the [Sleep]s in between.  [pending] is the lease applied last and
    the time slept since, while no renewal has followed. *)
Fixpoint renewal_delays (pending : option (Duration * Duration)) (tr : list event)
    : list (Duration * Duration) :=
  match tr with
  | [] => []
  | HandlePacket packet :: tr' =>
      renewal_delays ((λ l, (ValidLifetime l, 0)) <$> first_lease Leases packet) tr'
  | Sleep d :: tr' =>
      renewal_delays ((λ p, (p.1, p.2 + d)) <$> pending) tr'
  | Renew _ :: tr' =>
      match pending with
      | Some p => p :: renewal_delays None tr'
      | None => renewal_delays None tr'
      end
  | _ :: tr' => renewal_delays pending tr'
  end.

(** The lease that waits for its renewal at the end of a trace, with the
    time slept since it was applied: the state in which [renewal_delays]
    leaves the trace. *)
Fixpoint pending_after (pending : option (Duration * Duration))
    (tr : list (@event Packet)) : option (Duration * Duration) :=
  match tr with
  | [] => pending
  | HandlePacket packet :: tr' =>
      pending_after ((λ l, (ValidLifetime l, 0)) <$> first_lease Leases packet) tr'
  | Sleep d :: tr' => pending_after ((λ p, (p.1, p.2 + d)) <$> pending) tr'
  | Renew _ :: tr' => pending_after None tr'
  | _ :: tr' => pending_after pending tr'
  end.

(** The renewal deadline of the specification: every renewal that follows
    a lease whose lifetime [T] exceeds the margin comes when at least
    [T - slop] and at most [T] have been slept. *)
Definition renews_at_deadline (tr : list (@event Packet)) : Prop :=
  Forall (λ p, slop < p.1 → p.1 - slop ≤ p.2 ∧ p.2 ≤ p.1)
         (renewal_delays None tr).

(** The lease that waits for its renewal has been slept on for
    [timeout - slop]. *)
Definition slept_fixed (pending : option (Duration * Duration)) : Prop :=
  ∀ p, pending = Some p → p.2 = timeout - slop.

(** The ways in which a run returns. *)
Definition returns_ok (name : string) (script : list (@reply Packet))
    (run : list (@event Packet) * ending) : Prop :=
  match run.2 with
  | Returned (Some msg) =>
      ∃ herr packet pre,
        HandleReply (Some herr) ∈ script ∧
        msg = "error handling pakcet: " +:+ herr ∧
        run.1 = pre ++ [HandlePacket packet]
  | Returned None =>
      ∃ packet lease pre,
        first_lease Leases packet = Some lease ∧ ValidLifetime lease = 0 ∧
        run.1 = pre ++ [HandlePacket packet;
                        Log (Sprintf "%v: server returned infinite lease." [name] +:+ nl)]
  | _ => True
  end.

End WithPacket.

(** Packets that are the list of their leases. *)
Definition lease_of (lifetime : Duration) : list Lease :=
  [{| ValidLifetime := lifetime |}].

(** A lease of one hour, renewed by an infinite lease. *)
Definition script_hour : list (@reply (list Lease)) :=
  [ClientReply (Some (lease_of (3600 * Second))) None; HandleReply None;
   ClientReply (Some (lease_of 0)) None; HandleReply None].

(** Two failed requests, then an infinite lease. *)
Definition script_infinite : list (@reply (list Lease)) :=
  [ClientReply None (Some {| message := "i/o timeout"; is_timeout := true |});
   ClientReply None (Some {| message := "network is down"; is_timeout := false |});
   ClientReply (Some (lease_of 0)) None; HandleReply None;
   ClientReply (Some (lease_of (60 * Second))) None].

End LeaseSpec.

(** ** Package [wifi]: the other functions

    [parseIwconfig] and [ScanCurrentWifi].  A command
    ([exec.Command(...).CombinedOutput()]) is taken by its result: the
    output and the error. *)

Module WifiMore.
Import GoStrings Regexp Wifi.

(** A pattern as the function that gives the length of the match that
    starts at a position. *)
Definition matcher := option ascii → bytes → option nat.

(** The successive matches of a matcher, as [Regexp.all_matches] gives them
    for the patterns made of atoms. *)
Fixpoint all_matches_by (m : matcher) (prev : option ascii) (s : bytes)
    (pos skip : nat) (prevMatchEnd : option nat) : list (nat * nat) :=
  match skip with
  | S skip' =>
      match s with
      | c :: s' => all_matches_by m (Some c) s' (S pos) skip' prevMatchEnd
      | [] => []
      end
  | O =>
      match m prev s with
      | Some (S n) =>
          (pos, pos + S n) ::
          match s with
          | c :: s' => all_matches_by m (Some c) s' (S pos) n (Some (pos + S n))
          | [] => []
          end
      | Some O =>
          (if bool_decide (prevMatchEnd = Some pos) then [] else [(pos, pos)]) ++
          match s with
          | c :: s' => all_matches_by m (Some c) s' (S pos) 0 (Some pos)
          | [] => []
          end
      | None =>
          match s with
          | c :: s' => all_matches_by m (Some c) s' (S pos) 0 prevMatchEnd
          | [] => []
          end
      end
  end.

(** [re.FindAll(b, -1)] for a matcher. *)
Definition FindAll_by (m : matcher) (b : bytes) : list bytes :=
  (λ loc, slice b loc.1 loc.2) <$> all_matches_by m None b 0 0 None.

(** Matches that start at increasing positions. *)
Fixpoint increasing_starts (ms : list (nat * nat)) : Prop :=
  match ms with
  | [] => True
  | a :: ms' => Forall (λ b, a.1 < b.1) ms' ∧ increasing_starts ms'
  end.

(** [[a-zA-Z0-9]]. *)
Definition is_alnum (c : ascii) : bool :=
  let n := nat_of_ascii c in
  (48 <=? n) && (n <=? 57) || (65 <=? n) && (n <=? 90) || (97 <=? n) && (n <=? 122).

(** The number of bytes of the rune at the front of a text, as
    [utf8.DecodeRune] gives it: a byte that does not start a valid encoding
    is a rune of one byte. *)
Definition byte_in (lo hi : nat) (c : ascii) : bool :=
  (lo <=? nat_of_ascii c) && (nat_of_ascii c <=? hi).

Definition rune_width (s : bytes) : nat :=
  match s with
  | [] => 0
  | c0 :: s1 =>
      if byte_in 0 127 c0 then 1
      else if byte_in 194 223 c0 then
        match s1 with
        | c1 :: _ => if byte_in 128 191 c1 then 2 else 1
        | _ => 1
        end
      else if byte_in 224 239 c0 then
        match s1 with
        | c1 :: c2 :: _ =>
            let second :=
              if byte_in 224 224 c0 then byte_in 160 191 c1
              else if byte_in 237 237 c0 then byte_in 128 159 c1
              else byte_in 128 191 c1 in
            if second && byte_in 128 191 c2 then 3 else 1
        | _ => 1
        end
      else if byte_in 240 244 c0 then
        match s1 with
        | c1 :: c2 :: c3 :: _ =>
            let second :=
              if byte_in 240 240 c0 then byte_in 144 191 c1
              else if byte_in 244 244 c0 then byte_in 128 143 c1
              else byte_in 128 191 c1 in
            if second && byte_in 128 191 c2 && byte_in 128 191 c3 then 4 else 1
        | _ => 1
        end
      else 1
  end.

(** The pattern [.] in front of the continuation [k]: one rune that is not
    a line feed. *)
Definition any_rune (k : option ascii → bytes → option nat)
    (prev : option ascii) (s : bytes) : option nat :=
  match s with
  | [] => None
  | c :: _ =>
      if is_newline c then None
      else
        let w := rune_width s in
        n ← k (last (take w s)) (drop w s);
        Some (w + n)
  end.

(** [iwconfigRE], the pattern [(?m)^[a-zA-Z0-9]+\s*IEEE 802.11.*$]: at the
    start of a line one byte of the class, then the longest run of the class
    that lets the rest match; the dot between 802 and 11 is the pattern
    [.]. *)
Definition iwconfig_rest : option ascii → bytes → option nat :=
  star is_space (λ prev s,
    '(prev', s') ← literal (to_bytes "IEEE 802") prev s;
    n ← any_rune (match_here [Lit "11"; AnyStar; EndLine]) prev' s';
    Some (8 + n)).

Definition iwconfigRE : matcher := λ prev s,
  if at_begin_line prev then
    match s with
    | c :: s' =>
        if is_alnum c then S <$> star is_alnum iwconfig_rest (Some c) s'
        else None
    | [] => None
    end
  else None.

(** The loop of [parseIwconfig]: [res = append(res, strings.Split(string(i),
    " ")[0])] for every match; [None] is the panic of the index. *)
Fixpoint iwconfig_loop (interfaces : list bytes) (res : list string)
    : option (list string) :=
  match interfaces with
  | [] => Some res
  | i :: interfaces' =>
      name ← Split (of_bytes i) " " !! 0;
      iwconfig_loop interfaces' (res ++ [name])
  end.

(** [parseIwconfig(o []byte) (res []string)]. *)
Definition parseIwconfig (o : bytes) : option (list string) :=
  iwconfig_loop (FindAll_by iwconfigRE o) [].

(** [ScanCurrentWifi()], on the result of the command iwgetid. *)
Definition ScanCurrentWifi (o : bytes) (err : option string) : string * option string :=
  match err with
  | Some e => ("", Some e)
  | None => (Trim (of_bytes o) (" " +:+ nl), None)
  end.

(** The records are in the order of the blocks they are made of. *)
Definition in_block_order (o : bytes) (res : list WifiOption) : Prop :=
  ∀ p1 p2 r1 r2 i1 i2,
    p1 < p2 → res !! p1 = Some r1 → res !! p2 = Some r2 →
    ScanSpec.first_block o i1 (Essid r1) → ScanSpec.first_block o i2 (Essid r2) → i1 < i2.

(** The output of iwconfig for a wireless and a wired interface. *)
Definition iwconfig_output : bytes := to_bytes (ScanSpec.unlines [
  "wlan0     IEEE 802.11  ESSID:off/any";
  "          Mode:Managed  Access Point: Not-Associated";
  "";
  "eth0      no wireless extensions.";
  "";
  "wlp2s0    IEEE 802.11abgn  ESSID:" +:+ dq +:+ "Home" +:+ dq]).

(** Two blocks, of which the second has no ESSID line. *)
Definition scan_without_essid : bytes := to_bytes (ScanSpec.unlines [
  "          Cell 01 - Address: 00:11:22:33:44:55";
  "                    Encryption key:off";
  "                    ESSID:" +:+ dq +:+ "Home" +:+ dq;
  "          Cell 02 - Address: 00:11:22:33:44:66";
  "                    Encryption key:on"]).


(** An SSID with a colon in it. *)
Definition scan_colon : bytes := to_bytes (ScanSpec.unlines [
  "          Cell 01 - Address: 00:11:22:33:44:55";
  "                    Encryption key:off";
  "                    ESSID:" +:+ dq +:+ "Guest:5G" +:+ dq]).

End WifiMore.

(** ** Further vocabulary for the lease loop *)

Module LeaseMore.
Import GoStrings Dhclient LeaseSpec.
Local Open Scope Z_scope.

Section WithPacket.
Context {Packet : Type}.

(** The packets that the calls of [client.Renew] of a trace are given. *)
Definition renew_args (tr : list (@event Packet)) : list (option Packet) :=
  omap (λ e, match e with Renew q => Some q | _ => None end) tr.

End WithPacket.

(** A failed renewal whose answer carries no packet, then a renewal that
    succeeds with an infinite lease. *)
Definition script_failed_renewal : list (@reply (list Lease)) :=
  [ClientReply (Some (lease_of (60 * Second))) None; HandleReply None;
   ClientReply None (Some {| message := "i/o timeout"; is_timeout := true |});
   ClientReply (Some (lease_of 0)) None; HandleReply None].

(** An answer without a lease. *)
Definition script_no_lease : list (@reply (list Lease)) :=
  [ClientReply (Some []) None; HandleReply None].

End LeaseMore.

(** ** [cmds/wifi]: the first variant of [dhclient4]

    The variant with [numRenewals] and the flag [success].  It uses names
    that it does not declare: [needsRequest], whose value at the call is a
    parameter here, [mac], and [debug], taken as the function that gives the
    lines it logs. *)

Module DhclientFirst.
Import GoStrings Dhclient.
Local Open Scope Z_scope.

Definition numRenewals : Z := -1.

Section WithPacket.
Context {Packet : Type}.
Variables (mac : string) (debug : string → list string).

(** The statements of a round after the test of [success], with the rounds
    that follow: from the rest of the script, [needsRequest] and [packet]
    to the rest of the run. *)
Variable rest_of_run :
  list (@reply Packet) → bool → option Packet → list (@event Packet) * ending.

(** [for i := 0; i < retry || retry < 0; i++ { ... }], entered at the test
    of [i]. *)
Fixpoint retries (script : list reply) (i : Z) (needsRequest : bool)
    (packet : option Packet)
    : list event * option (list reply * bool * option Packet) :=
  if (i <? retry) || (retry <? 0) then
    let resend :=
      if 0 <? i then
        Log <$> (if needsRequest then debug ("Resending DHCPv4 request..." +:+ nl)
                 else debug "Resending DHCPv4 renewal")
      else [] in
    let call := if needsRequest then Solicit else Renew packet in
    match script with
    | ClientReply packet' err :: script' =>
        match err with
        | Some e =>
            let '(tr, r) := retries script' (wrap_int (i + 1)) needsRequest packet' in
            (resend ++ call :: failure_log mac e :: tr, r)
        | None => (resend ++ [call], Some (script', false, packet'))
        end
    | _ => (resend ++ [call], None)
    end
  else ([], Some (script, needsRequest, packet)).

(** The first round of the outer loop. [success] is declared and never
    assigned. *)
Definition first_round (script : list reply) (needsRequest : bool)
    (packet : option Packet) : list event * ending :=
  let success := false in
  let '(tr, r) := retries script 0 needsRequest packet in
  match r with
  | Some (script', needsRequest', packet') =>
      if negb success then
        (tr, Returned (Some (Sprintf "%s: we didn't successfully get a DHCP lease" [mac])))
      else
        let '(tr', e) := rest_of_run script' needsRequest' packet' in (tr ++ tr', e)
  | None => (tr, Blocked)
  end.

(** [dhclient4(iface netlink.Link) error], first variant. *)
Definition dhclient4 (newV4 : option string) (needsRequest : bool)
    (script : list reply) : list event * ending :=
  match newV4 with
  | Some err => ([], Returned (Some (Sprintf "error: %v" [err])))
  | None =>
      if (numRenewals <? 0) || (0 <? numRenewals + 1) then
        first_round script needsRequest None
      else ([], Returned None)
  end.

End WithPacket.
End DhclientFirst.

(** ** The registry of services

    [SosService] holds a map from names to ports. Go maps are references:
    the maps live in a store, and a map value is nil or the address of a map
    of the store. The methods are taken one call at a time; the lock is not
    modelled. A [uint] is a number that is stored and handed back. *)

Module Sos.
Import GoStrings.

Abbreviation store := (gmap nat (gmap string N)).

(** [Registry], a map value: [None] is the nil map. *)
Definition Registry := option nat.

Record SosService := { registry : Registry }.

(** The map that a map value stands for; reading the nil map reads an empty
    map. *)
Definition map_of (h : store) (r : Registry) : gmap string N :=
  default ∅ (l ← r; h !! l).

(** [s.Read(serviceName) (uint, error)]. *)
Definition Read (s : SosService) (serviceName : string) (h : store)
    : N * option string :=
  match map_of h (registry s) !! serviceName with
  | Some port => (port, None)
  | None => (0%N, Some (Sprintf "%v is not in the registry" [serviceName]))
  end.

(** [s.Register(serviceName, portNum) error]; [None] is the panic of an
    assignment to an entry of the nil map. *)
Definition Register (s : SosService) (serviceName : string) (portNum : N) (h : store)
    : option (option string * store) :=
  match map_of h (registry s) !! serviceName with
  | Some _ => Some (Some (Sprintf "%v already exists" [serviceName]), h)
  | None =>
      match registry s with
      | Some l => Some (None, <[l := <[serviceName := portNum]> (map_of h (registry s))]> h)
      | None => None
      end
  end.

(** [s.Unregister(serviceName)]; [delete] does nothing on the nil map. *)
Definition Unregister (s : SosService) (serviceName : string) (h : store) : store :=
  match registry s with
  | Some l => <[l := delete serviceName (map_of h (registry s))]> h
  | None => h
  end.

(** [s.SnapshotRegistry() Registry]: a new map with the entries of the
    registry. *)
Definition SnapshotRegistry (s : SosService) (h : store) : Registry * store :=
  let snapshot := fresh (dom h) in
  (Some snapshot, <[snapshot := map_of h (registry s)]> h).

(** The registry of the service is a map of the store, or nil. *)
Definition valid (s : SosService) (h : store) : Prop :=
  ∀ l, registry s = Some l → is_Some (h !! l).

(** A service with an empty registry at the address 0, and one with two
    names. *)
Definition service : SosService := {| registry := Some 0 |}.
Definition empty_store : store := {[ 0 := ∅ ]}.
Definition busy_store : store := {[ 0 := {[ "dhcp" := 67%N; "http" := 8080%N ]} ]}.

End Sos.

(** * Properties *)

(** ** The scan parser and the profile generator *)

Section ScanProofs.
Import GoStrings Regexp Wifi ScanSpec.
Variable o : bytes.

Local Abbreviation body := (parse_cell o (cells o) (essids o) (encKeyOpts o)).

(** The start of the loop body, for a block whose SSID is given by [He]: the
    ESSID line and its field are there. *)
Local Ltac read_essid He :=
  unfold essid_of_block, parse_cell, index in *;
  destruct (essids _ !! _) as [line|]; simpl in *; [|done];
  destruct (Split (of_bytes line) ":" !! 1) as [field|]; simpl in *; [|done];
  injection He as <-.

(** The indicator line and its field, when the block has them. *)
Local Ltac read_encKeyOpt :=
  destruct (encKeyOpts _ !! _) as [line'|]; simpl in *; [|done];
  destruct (Split (of_bytes line') ":" !! 1) as [field'|]; simpl in *; [|done].

Lemma parse_cell_known i e K res :
  essid_of_block o i = Some e → known K e = true → body i (K, res) = Ok (K, res).
Proof.
  intros He Hk. read_essid He. by rewrite Hk.
Qed.

Lemma parse_cell_fresh i e K res :
  essid_of_block o i = Some e → known K e = false →
  body i (K, res) =
    match body i (∅, []) with
    | Ok st => Ok (<[e := true]> K, res ++ st.2)
    | Panic p => Panic p
    end.
Proof.
  intros He Hk. read_essid He. rewrite Hk.
  replace (known ∅ (Trim field (dq +:+ nl))) with false by done.
  read_encKeyOpt.
  destruct (String.eqb (Trim field' nl) "off"); [done|].
  destruct (cells o !! i) as [cell|]; simpl; [|done].
  case_bool_decide; simpl.
  - destruct (cells o !! (i + 1)) as [next|]; simpl; [|done].
    destruct (FindIndex wpa2RE _) as [l|]; [|done].
    destruct (Split _ ":" !! 1) as [field''|]; simpl; done.
  - destruct (FindIndex wpa2RE _) as [l|]; [|done].
    destruct (Split _ ":" !! 1) as [field''|]; simpl; done.
Qed.

Lemma parse_cell_alone i e K rs :
  essid_of_block o i = Some e → body i (∅, []) = Ok (K, rs) →
  ∃ sec, rs = [{| Essid := e; AuthSuite := sec |}].
Proof.
  intros He. read_essid He.
  replace (known ∅ (Trim field (dq +:+ nl))) with false by done.
  read_encKeyOpt.
  destruct (String.eqb (Trim field' nl) "off"); [intros [= <- <-]; eauto|].
  destruct (cells o !! i) as [cell|]; simpl; [|done].
  case_bool_decide; simpl.
  - destruct (cells o !! (i + 1)) as [next|]; simpl; [|done].
    destruct (FindIndex wpa2RE _) as [l|]; [|intros [= <- <-]; eauto].
    destruct (Split _ ":" !! 1) as [field''|]; simpl; [|done].
    intros [= <- <-]; eauto.
  - destruct (FindIndex wpa2RE _) as [l|]; [|intros [= <- <-]; eauto].
    destruct (Split _ ":" !! 1) as [field''|]; simpl; [|done].
    intros [= <- <-]; eauto.
Qed.

Lemma parse_cell_no_essid i st :
  essid_of_block o i = None →
  body i st = Panic (EssidsIndex i) ∨ body i st = Panic (EssidFieldIndex i).
Proof.
  unfold essid_of_block, parse_cell, index. destruct st as [K res].
  destruct (essids o !! i) as [line|]; simpl; [|by left].
  destruct (Split (of_bytes line) ":" !! 1) as [field|]; simpl; [done|by right].
Qed.

(** A block with the indicator off yields an open record, whatever its
    window holds. *)
Lemma parse_cell_off i e :
  essid_of_block o i = Some e → encKeyOpt_of_block o i = Some "off" →
  body i (∅, []) = Ok ({[ e := true ]}, [{| Essid := e; AuthSuite := NoEnc |}]).
Proof.
  intros He Hk. unfold encKeyOpt_of_block in Hk. read_essid He.
  replace (known ∅ (Trim field (dq +:+ nl))) with false by done.
  read_encKeyOpt.
  injection Hk as ->. simpl. by rewrite insert_empty.
Qed.


Lemma known_insert (K : gmap string bool) e e' :
  known (<[e := true]> K) e' = true ↔ e' = e ∨ known K e' = true.
Proof.
  unfold known. destruct (decide (e = e')) as [->|Hne].
  - rewrite lookup_insert_eq. simpl. split; [by left | done].
  - rewrite lookup_insert_ne by done. split; [by right | by intros [->|?]].
Qed.

Lemma parsed_up_to_start : parsed_up_to o 0 (∅, []).
Proof.
  repeat split; simpl.
  - done.
  - intros (j & ? & _); lia.
  - intros ?%elem_of_nil; done.
  - intros (j & ? & _); lia.
  - intros j e ?; lia.
  - constructor.
  - lia.
Qed.

Lemma parse_cell_step i st st' :
  body i st = Ok st' → parsed_up_to o i st → parsed_up_to o (S i) st'.
Proof.
  destruct st as [K res]. intros Hbody (Hknown & Hres & Hall & Hnodup & Hlen).
  simpl in Hknown, Hres, Hnodup, Hlen.
  destruct (essid_of_block o i) as [e|] eqn:He; last first.
  { destruct (parse_cell_no_essid i (K, res) He) as [H|H]; rewrite H in Hbody; done. }
  destruct (known K e) eqn:Hk.
  - rewrite (parse_cell_known i e K res He Hk) in Hbody. injection Hbody as <-.
    repeat split; simpl; [| | | | | done | lia].
    + intros (j & Hj & Hje)%Hknown. exists j. split; [lia | done].
    + intros (j & Hj & Hje). destruct (decide (j = i)) as [->|Hne].
      * congruence.
      * apply Hknown. exists j. split; [lia | done].
    + intros (j & Hj & Hfirst & Hrec)%Hres. exists j. split; [lia | done].
    + intros (j & Hj & Hfirst & Hrec). destruct (decide (j = i)) as [->|Hne].
      * destruct Hfirst as [Hje Hfresh]. rewrite He in Hje. injection Hje as ->.
        apply Hknown in Hk as (j' & Hj' & Hj'e). by destruct (Hfresh j' Hj').
      * apply Hres. exists j. split; [lia | done].
    + intros j e' Hj Hfirst. destruct (decide (j = i)) as [->|Hne].
      * destruct Hfirst as [Hje Hfresh]. rewrite He in Hje. injection Hje as ->.
        apply Hknown in Hk as (j' & Hj' & Hj'e). by destruct (Hfresh j' Hj').
      * apply (Hall j e'); [lia | done].
  - rewrite (parse_cell_fresh i e K res He Hk) in Hbody.
    destruct (body i (∅, [])) as [[K0 rs]|p] eqn:Halone; [|done].
    injection Hbody as <-. simpl.
    destruct (parse_cell_alone i e K0 rs He Halone) as [sec ->].
    assert (∀ j, j < i → essid_of_block o j ≠ Some e) as Hfresh.
    { intros j Hj Hje. assert (known K e = true) by (apply Hknown; eauto). congruence. }
    repeat split; simpl.
    + intros [->|(j & Hj & Hje)%Hknown]%known_insert.
      * exists i. split; [lia | done].
      * exists j. split; [lia | done].
    + intros (j & Hj & Hje). apply known_insert.
      destruct (decide (j = i)) as [->|Hne].
      * left. congruence.
      * right. apply Hknown. exists j. split; [lia | done].
    + intros [(j & Hj & Hfirst & Hrec)%Hres | ->%list_elem_of_singleton]%elem_of_app.
      * exists j. split; [lia | done].
      * exists i. split; [lia|]. split; [done|]. by exists K0.
    + intros (j & Hj & Hfirst & Hrec). apply elem_of_app.
      destruct (decide (j = i)) as [->|Hne].
      * right. destruct Hrec as [K1 Hrec]. rewrite Halone in Hrec.
        injection Hrec as _ ->. apply list_elem_of_singleton. done.
      * left. apply Hres. exists j. split; [lia | done].
    + intros j e' Hj Hfirst'. destruct (decide (j = i)) as [->|Hne].
      * eexists. by exists K0.
      * apply (Hall j e'); [lia | done].
    + rewrite fmap_app. apply NoDup_app. split; [done|]. split; [|apply NoDup_singleton].
      simpl. intros e' (r & Hre & Hr)%list_elem_of_fmap Hin.
      apply list_elem_of_singleton in Hin. rewrite Hin in Hre.
      apply Hres in Hr as (j & Hj & [Hje _] & _).
      rewrite <- Hre in Hje. by destruct (Hfresh j Hj).
    + rewrite length_app. simpl. lia.
Qed.

Lemma result_bind_Ok {A B} (a : A) (f : A → result B) : Ok a ≫= f = f a.
Proof. reflexivity. Qed.

Lemma parse_loop_S n i st :
  parse_loop o (cells o) (essids o) (encKeyOpts o) (S n) i st
  = body i st ≫= parse_loop o (cells o) (essids o) (encKeyOpts o) n (S i).
Proof. reflexivity. Qed.

Lemma parse_loop_steps n i st st' :
  parse_loop o (cells o) (essids o) (encKeyOpts o) n i st = Ok st' →
  parsed_up_to o i st → parsed_up_to o (i + n) st'.
Proof.
  revert i st. induction n as [|n IH]; intros i st; simpl.
  - intros [= <-]. by rewrite Nat.add_0_r.
  - destruct (body i st) as [st1|p] eqn:Hbody; simpl; [|done].
    intros Hloop Hinv. replace (i + S n) with (S i + n) by lia.
    apply (IH _ _ Hloop). by eapply parse_cell_step.
Qed.

(** The records of a scan: one for each first block, and no other. *)
Lemma parse_records res :
  parseIwlistOut o = Ok res →
  NoDup (Essid <$> res) ∧
  List.length res ≤ List.length (cells o) ∧
  (∀ r, r ∈ res ↔
        ∃ i, i < List.length (cells o) ∧ first_block o i (Essid r) ∧ block_record o i r) ∧
  (∀ i e, i < List.length (cells o) → first_block o i e → ∃ r, block_record o i r).
Proof.
  unfold parseIwlistOut. fold (cells o) (essids o) (encKeyOpts o).
  destruct (cells o) as [|c cs] eqn:Hcells.
  - intros [= <-]. split; [constructor|]. split; [done|]. split.
    + intros r. split; [by intros ?%elem_of_nil | intros (i & Hi & _); simpl in Hi; lia].
    + intros i e Hi. simpl in Hi. lia.
  - rewrite <- Hcells.
    destruct (parse_loop _ _ _ _ _ _ _) as [st|p] eqn:Hloop; simpl; [|done].
    intros [= <-].
    apply parse_loop_steps in Hloop; [|apply parsed_up_to_start].
    destruct Hloop as (_ & Hres & Hall & Hnodup & Hlen). done.
Qed.

Lemma first_block_unique i j e :
  first_block o i e → first_block o j e → i = j.
Proof.
  intros [Hi Hi'] [Hj Hj'].
  destruct (Nat.lt_trichotomy i j) as [H|[H|H]]; [|done|].
  - by destruct (Hj' i H).
  - by destruct (Hi' j H).
Qed.

(** The record of the first block with a given SSID is the one, and the
    only one, that the scan has for this SSID. *)
Lemma parse_first_block res i r :
  parseIwlistOut o = Ok res →
  i < List.length (cells o) → first_block o i (Essid r) → block_record o i r →
  r ∈ res ∧ ∀ r', r' ∈ res → Essid r' = Essid r → r' = r.
Proof.
  intros Hparse Hi Hfirst Hrec.
  destruct (parse_records res Hparse) as (_ & _ & Hres & _). split.
  - apply Hres. eauto.
  - intros r' (j & Hj & Hfirst' & [K' Hrec'])%Hres Heq. rewrite Heq in Hfirst'.
    rewrite (first_block_unique _ _ _ Hfirst' Hfirst) in Hrec'.
    destruct Hrec as [K Hrec]. congruence.
Qed.

(** Under the alignment of the three sequences the loop body reads them
    inside their bounds. *)
Lemma parse_cell_indexes i st k :
  i < List.length (cells o) →
  List.length (cells o) ≤ List.length (essids o) →
  List.length (cells o) ≤ List.length (encKeyOpts o) →
  body i st ≠ Panic (EssidsIndex k) ∧ body i st ≠ Panic (EncKeyOptsIndex k) ∧
  body i st ≠ Panic (CellsIndex k).
Proof.
  intros Hi Hessids Hencs. destruct st as [K res]. unfold parse_cell, index.
  destruct (lookup_lt_is_Some_2 (essids o) i) as [line ->]; [lia|]. simpl.
  destruct (Split (of_bytes line) ":" !! 1) as [field|]; simpl; [|done].
  destruct (known K _); [done|].
  destruct (lookup_lt_is_Some_2 (encKeyOpts o) i) as [line' ->]; [lia|]. simpl.
  destruct (Split (of_bytes line') ":" !! 1) as [field'|]; simpl; [|done].
  destruct (String.eqb _ "off"); [done|].
  destruct (lookup_lt_is_Some_2 (cells o) i Hi) as [cell ->]. simpl.
  case_bool_decide as Hlast; simpl.
  - destruct (lookup_lt_is_Some_2 (cells o) (i + 1)) as [next ->]; [lia|]. simpl.
    destruct (FindIndex wpa2RE _) as [l|]; [|done].
    destruct (Split _ ":" !! 1) as [field''|]; done.
  - destruct (FindIndex wpa2RE _) as [l|]; [|done].
    destruct (Split _ ":" !! 1) as [field''|]; done.
Qed.

Lemma parse_loop_indexes n i st k :
  i + n = List.length (cells o) →
  List.length (cells o) ≤ List.length (essids o) →
  List.length (cells o) ≤ List.length (encKeyOpts o) →
  let run := parse_loop o (cells o) (essids o) (encKeyOpts o) n i st in
  run ≠ Panic (EssidsIndex k) ∧ run ≠ Panic (EncKeyOptsIndex k) ∧
  run ≠ Panic (CellsIndex k).
Proof.
  intros Hn Hessids Hencs. revert i st Hn. induction n as [|n IH]; intros i st Hn; simpl.
  - done.
  - assert (i < List.length (cells o)) as Hi by lia.
    pose proof (parse_cell_indexes i st k Hi Hessids Hencs) as Hbody.
    destruct (body i st) as [st1|p]; simpl.
    + apply IH. lia.
    + destruct Hbody as (H1 & H2 & H3). repeat split; congruence.
Qed.
End ScanProofs.

Section ScanClaims.
Import GoStrings Regexp Wifi ScanSpec.

(** C2. The scan parser returns at most one record per distinct SSID, and no
    more records than blocks; the record of an SSID is the one that the first
    block with this SSID yields, later blocks with the same SSID add nothing.
    In particular a text with two blocks named Home, the first with the
    indicator off, gives the single record Home, open, whatever the second
    block announces. *)
Theorem parse_first_occurrence_wins (o : bytes) :
  (∀ res, parseIwlistOut o = Ok res →
     NoDup (Essid <$> res) ∧
     List.length res ≤ List.length (cells o) ∧
     ∀ r, r ∈ res ↔
          ∃ i, i < List.length (cells o) ∧ first_block o i (Essid r) ∧ block_record o i r) ∧
  (List.length (cells o) = 2 →
   essid_of_block o 0 = Some "Home" → essid_of_block o 1 = Some "Home" →
   encKeyOpt_of_block o 0 = Some "off" →
   parseIwlistOut o = Ok [{| Essid := "Home"; AuthSuite := NoEnc |}]).
Proof.
  split.
  { intros res Hparse. destruct (parse_records o res Hparse) as (? & ? & ? & _). done. }
  intros Hlen He0 He1 Hoff. unfold parseIwlistOut.
  fold (cells o) (essids o) (encKeyOpts o). rewrite Hlen.
  destruct (cells o) as [|c0 cs] eqn:Hcells; [done|]. rewrite <- Hcells.
  rewrite parse_loop_S, (parse_cell_off o 0 "Home" He0 Hoff), result_bind_Ok.
  rewrite parse_loop_S, (parse_cell_known o 1 "Home" _ _ He1); [done|].
  unfold known. by rewrite lookup_singleton_eq.
Qed.

Lemma parse_first_occurrence_wins_witness :
  parseIwlistOut scan_home_twice = Ok [{| Essid := "Home"; AuthSuite := NoEnc |}] ∧
  NoDup (Essid <$> [{| Essid := "Home"; AuthSuite := NoEnc |}]).
Proof.
  assert (parseIwlistOut scan_home_twice = Ok [{| Essid := "Home"; AuthSuite := NoEnc |}]) as H.
  { apply (proj2 (parse_first_occurrence_wins scan_home_twice)); vm_compute; reflexivity. }
  split; [exact H|].
  exact (proj1 (proj1 (parse_first_occurrence_wins scan_home_twice) _ H)).
Defined.



(** C6. For a block whose indicator is off the loop body appends an open
    record and goes on to the next block, without reading the window; the
    scan has this record for the SSID of the block, and no other, whatever
    markers or authentication suites the text holds. *)
Theorem parse_off_is_open (o : bytes) (i : nat) (essid : string)
    (res : list WifiOption) :
  parseIwlistOut o = Ok res →
  i < List.length (cells o) →
  first_block o i essid →
  encKeyOpt_of_block o i = Some "off" →
  {| Essid := essid; AuthSuite := NoEnc |} ∈ res ∧
  (∀ r, r ∈ res → Essid r = essid → AuthSuite r = NoEnc) ∧
  (∀ knownEssids res0, known knownEssids essid = false →
     parse_cell o (cells o) (essids o) (encKeyOpts o) i (knownEssids, res0)
     = Ok (<[essid := true]> knownEssids,
           res0 ++ [{| Essid := essid; AuthSuite := NoEnc |}])).
Proof.
  intros Hparse Hi Hfirst Hoff.
  pose proof (parse_cell_off o i essid (proj1 Hfirst) Hoff) as Hcell.
  destruct (parse_first_block o res i {| Essid := essid; AuthSuite := NoEnc |}
              Hparse Hi Hfirst) as [Hin Hunique]; [by eexists|].
  split; [done|]. split.
  - intros r Hr Heq. by rewrite (Hunique r Hr Heq).
  - intros K res0 HK.
    by rewrite (parse_cell_fresh o i essid K res0 (proj1 Hfirst) HK), Hcell.
Qed.

Lemma parse_off_is_open_witness :
  FindIndex wpa2RE scan_open_between ≠ None ∧
  {| Essid := "Cafe"; AuthSuite := NoEnc |} ∈
    [{| Essid := "Lab"; AuthSuite := WpaPsk |};
     {| Essid := "Cafe"; AuthSuite := NoEnc |};
     {| Essid := "Office"; AuthSuite := WpaEap |}].
Proof.
  split; [by vm_compute|].
  refine (proj1 (parse_off_is_open scan_open_between 1 "Cafe" _ _ _ _ _)).
  - vm_compute. reflexivity.
  - vm_compute. lia.
  - split; [vm_compute; reflexivity|].
    intros j Hj. assert (j = 0) as -> by lia. by vm_compute.
  - vm_compute. reflexivity.
Defined.

(** C9. When the text has at least as many SSID lines and as many
    encryption-indicator lines as it has blocks, the parser reads both
    sequences inside their bounds: its run does not end in the panic of
    [essids[i]] or of [encKeyOpts[i]] (nor of [cells[i]]). *)
Theorem parse_indexes_in_bounds (o : bytes) (k : nat) :
  List.length (cells o) ≤ List.length (essids o) →
  List.length (cells o) ≤ List.length (encKeyOpts o) →
  parseIwlistOut o ≠ Panic (EssidsIndex k) ∧
  parseIwlistOut o ≠ Panic (EncKeyOptsIndex k) ∧
  parseIwlistOut o ≠ Panic (CellsIndex k).
Proof.
  intros Hessids Hencs.
  pose proof (parse_loop_indexes o (List.length (cells o)) 0 (∅, []) k
                eq_refl Hessids Hencs) as Hloop. simpl in Hloop.
  unfold parseIwlistOut. fold (cells o) (essids o) (encKeyOpts o).
  destruct (cells o) as [|c cs] eqn:Hcells; [done|]. rewrite <- Hcells in *.
  destruct (parse_loop _ _ _ _ _ _ _) as [st|p]; simpl; [done|].
  destruct Hloop as (H1 & H2 & H3). repeat split; congruence.
Qed.

Lemma parse_indexes_in_bounds_witness :
  parseIwlistOut scan_open_between ≠ Panic (EssidsIndex 0) ∧
  parseIwlistOut scan_open_between ≠ Panic (EncKeyOptsIndex 0) ∧
  parseIwlistOut scan_open_between ≠ Panic (CellsIndex 0).
Proof.
  apply (parse_indexes_in_bounds scan_open_between 0); vm_compute; lia.
Defined.
End ScanClaims.

Section ProfileClaims.
Import GoStrings Wifi ScanSpec.

(** C7. With an SSID, a passphrase and an identity, [generateConfig] returns
    the enterprise profile whose ssid field is the first argument, whose
    identity field is the third and whose password field is the second, as
    they are; so for Office, secret123 and alice. *)
Theorem generateConfig_enterprise
    (passphrase_Run : string → string → option string * option string)
    (ssid pass identity : string) :
  generateConfig passphrase_Run [ssid; pass; identity]
  = (Some ("network={" +:+ nl +:+
           tab +:+ tab +:+ "ssid=" +:+ dq +:+ ssid +:+ dq +:+ nl +:+
           tab +:+ tab +:+ "key_mgmt=WPA-EAP" +:+ nl +:+
           tab +:+ tab +:+ "identity=" +:+ dq +:+ identity +:+ dq +:+ nl +:+
           tab +:+ tab +:+ "password=" +:+ dq +:+ pass +:+ dq +:+ nl +:+
           tab +:+ "}"), None) ∧
  generateConfig passphrase_Run ["Office"; "secret123"; "alice"]
  = (Some (enterprise_profile "Office" "alice" "secret123"), None).
Proof. split; reflexivity. Qed.

(** C8. With no argument or with more than three, [generateConfig] returns
    no profile and the error that it needs 1, 2, or 3 args. *)
Theorem generateConfig_argument_count
    (passphrase_Run : string → string → option string * option string)
    (a : list string) :
  List.length a = 0 ∨ 3 < List.length a →
  generateConfig passphrase_Run a
  = (None, Some "generateConfig needs 1, 2, or 3 args").
Proof.
  intros Hlen. unfold generateConfig.
  destruct (Nat.eqb_spec (List.length a) 3) as [H3|_]; [lia|].
  destruct (Nat.eqb_spec (List.length a) 2) as [H2|_]; [lia|].
  destruct (Nat.eqb_spec (List.length a) 1) as [H1|_]; [lia|].
  reflexivity.
Qed.

Lemma generateConfig_argument_count_witness :
  generateConfig (λ _ _, (None, None)) ["Office"; "secret123"; "alice"; "extra"]
  = (None, Some "generateConfig needs 1, 2, or 3 args").
Proof.
  apply (generateConfig_argument_count (λ _ _, (None, None))
           ["Office"; "secret123"; "alice"; "extra"]).
  right. simpl. lia.
Defined.
End ProfileClaims.

(** ** The lease loop *)

Section LeaseProofs.
Import GoStrings Dhclient LeaseSpec.
Local Open Scope Z_scope.
Context {Packet : Type} (Leases : Packet → list Lease) (mac name : string).

Local Abbreviation retries := (@retries Packet mac).
Local Abbreviation renew_loop := (renew_loop Leases mac name).

Lemma wrap_int_small z : - 2 ^ 63 ≤ z < 2 ^ 63 → wrap_int z = z.
Proof. intros Hz. unfold wrap_int. rewrite Z.mod_small; lia. Qed.

Lemma request_is_request i nr (pk : option Packet) :
  Forall is_request (request i nr pk).
Proof.
  unfold request. destruct nr, (0 <? i); repeat constructor.
Qed.

Lemma request_no_renew i (pk q : option Packet) : Renew q ∉ request i true pk.
Proof.
  unfold request. destruct (0 <? i); simpl.
  - intros [?|[?|?%elem_of_nil]%elem_of_cons]%elem_of_cons; done.
  - intros [?|?%elem_of_nil]%elem_of_cons; done.
Qed.

Lemma failure_log_is_log e : ∃ msg, failure_log mac e = @Log Packet msg.
Proof. unfold failure_log. destruct (is_timeout e); eauto. Qed.

Lemma retries_eq script i nr pk :
  retries script i nr pk =
    if -1 <? i then
      match script with
      | ClientReply packet' (Some e) :: script' =>
          let '(tr, r) := retries script' (wrap_int (i + 1)) nr packet' in
          (request i nr pk ++ failure_log mac e :: tr, r)
      | ClientReply packet' None :: script' =>
          (request i nr pk, Some (script', false, packet'))
      | _ => (request i nr pk, None)
      end
    else ([], Some (script, nr, pk)).
Proof. destruct script as [|[p [e|]|h] script']; reflexivity. Qed.

(** The inner loop makes requests only, and leaves a suffix of the script. *)
Lemma retries_trace script i nr pk :
  Forall is_request (retries script i nr pk).1.
Proof.
  revert i pk. induction script as [|r script IH]; intros i pk; rewrite retries_eq.
  - destruct (-1 <? i); simpl; [apply request_is_request | constructor].
  - destruct (-1 <? i); simpl; [|constructor].
    destruct r as [p [e|]|h]; simpl; try apply request_is_request.
    specialize (IH (wrap_int (i + 1)) p).
    destruct (retries script (wrap_int (i + 1)) nr p) as [tr r]. simpl in *.
    apply Forall_app. split; [apply request_is_request|].
    constructor; [|done]. destruct (failure_log_is_log e) as [msg ->]. done.
Qed.

Lemma retries_rest script i nr pk rest nr' pk' :
  (retries script i nr pk).2 = Some (rest, nr', pk') →
  ∃ used, script = used ++ rest ∧ Forall (λ r, ∃ p e, r = ClientReply p e) used.
Proof.
  revert i pk. induction script as [|r script IH]; intros i pk; rewrite retries_eq.
  - destruct (-1 <? i); simpl; [done|]. intros [= <- <- <-]. by exists [].
  - destruct (-1 <? i); simpl; [|intros [= <- <- <-]; by exists []].
    destruct r as [p [e|]|h]; simpl; [| |done].
    + specialize (IH (wrap_int (i + 1)) p).
      destruct (retries script (wrap_int (i + 1)) nr p) as [tr r]. simpl in *.
      intros Hr. destruct (IH Hr) as (used & -> & Hused).
      exists (ClientReply p (Some e) :: used). split; [done|].
      constructor; [eauto | done].
    + intros [= <- <- <-]. exists [ClientReply p None]. split; [done|].
      constructor; [eauto | done].
Qed.

Lemma retries_no_renew script i pk q :
  Renew q ∉ (retries script i true pk).1.
Proof.
  revert i pk. induction script as [|r script IH]; intros i pk; rewrite retries_eq.
  - destruct (-1 <? i); cbn [fst]; [apply request_no_renew | apply not_elem_of_nil].
  - destruct (-1 <? i); cbn [fst]; [|apply not_elem_of_nil].
    destruct r as [p [e|]|h]; cbn [fst]; try apply request_no_renew.
    specialize (IH (wrap_int (i + 1)) p).
    destruct (retries script (wrap_int (i + 1)) true p) as [tr r]. cbn [fst] in *.
    intros [Hin|[Hin|Hin]%elem_of_cons]%elem_of_app.
    + by apply request_no_renew in Hin.
    + destruct (failure_log_is_log e) as [msg Hmsg]. congruence.
    + done.
Qed.

(** After fewer than 2^63 failed requests the loop still makes the next
    one, and leaves with its answer. *)
Lemma retries_after_failures fs p rest i nr pk :
  0 ≤ i → i + Z.of_nat (List.length fs) < 2 ^ 63 →
  (retries ((failed <$> fs) ++ ClientReply p None :: rest) i nr pk).2
  = Some (rest, false, p).
Proof.
  revert i pk. induction fs as [|f fs IH]; intros i pk Hi Hlen;
    rewrite retries_eq; (assert ((-1 <? i) = true) as -> by lia).
  - done.
  - rewrite length_cons in Hlen. specialize (IH (wrap_int (i + 1)) f.1).
    rewrite wrap_int_small in * by lia.
    rewrite fmap_cons. cbn [app failed].
    destruct (retries _ (i + 1) nr f.1) as [tr r]. cbn [snd] in *.
    apply IH; lia.
Qed.

Lemma renew_loop_S fuel script nr pk :
  renew_loop (S fuel) script nr pk =
    let '(tr, r) := retries script 0 nr pk in
    let tr := Log ("Start getting or renewing DHCPv4 lease" +:+ nl) :: tr in
    match r with
    | Some (HandleReply herr :: script', nr', pk') =>
        let tr := tr ++ [HandlePacket pk'] in
        match herr with
        | Some e => (tr, Returned (Some (Sprintf "error handling pakcet: %v" [e])))
        | None =>
            match first_lease Leases pk' with
            | None => (tr, Panicked)
            | Some lease =>
                if ValidLifetime lease =? 0 then
                  (tr ++ [Log (Sprintf "%v: server returned infinite lease." [name] +:+ nl)],
                   Returned None)
                else
                  let '(tr', e) := renew_loop fuel script' nr' pk' in
                  (tr ++ Sleep (timeout - slop) :: tr', e)
            end
        end
    | _ => (tr, Blocked)
    end.
Proof. reflexivity. Qed.

Lemma string_app_nil_r (s : string) : s +:+ "" = s.
Proof.
  induction s as [|c s IH]; [done|].
  change (String c (s +:+ "") = String c s). by f_equal.
Qed.

Lemma Errorf_handling (e : string) :
  Sprintf "error handling pakcet: %v" [e] = "error handling pakcet: " +:+ e.
Proof. rewrite <- (string_app_nil_r e) at 2. reflexivity. Qed.

(** One round more than the script has answers is enough. *)
Lemma renew_loop_fuel fuel script nr pk :
  (List.length script < fuel)%nat → (renew_loop fuel script nr pk).2 ≠ OutOfFuel.
Proof.
  revert script nr pk. induction fuel as [|fuel IH]; intros script nr pk Hlen; [lia|].
  rewrite renew_loop_S.
  destruct (retries script 0 nr pk) as [tr r] eqn:Hretries.
  destruct r as [[[[|[p e|herr] script'] nr'] pk']|]; cbn [snd]; try done.
  destruct herr as [e|]; [done|].
  destruct (first_lease Leases pk') as [lease|]; [|done].
  destruct (ValidLifetime lease =? 0); [done|].
  specialize (IH script' nr' pk').
  destruct (renew_loop fuel script' nr' pk') as [tr' e]. cbn [snd] in *.
  apply IH.
  destruct (retries_rest script 0 nr pk (HandleReply None :: script') nr' pk')
    as (used & -> & _); [by rewrite Hretries|].
  rewrite length_app in Hlen. simpl in Hlen. lia.
Qed.

Lemma renew_loop_returns fuel script nr pk :
  returns_ok Leases name script (renew_loop fuel script nr pk).
Proof.
  revert script nr pk. induction fuel as [|fuel IH]; intros script nr pk; [done|].
  rewrite renew_loop_S.
  destruct (retries script 0 nr pk) as [tr r] eqn:Hretries.
  destruct r as [[[[|[p e|herr] script'] nr'] pk']|]; try done.
  destruct (retries_rest script 0 nr pk (HandleReply herr :: script') nr' pk')
    as (used & -> & _); [by rewrite Hretries|].
  destruct herr as [e|].
  { exists e, pk', (Log ("Start getting or renewing DHCPv4 lease" +:+ nl) :: tr).
    split; [apply elem_of_app; right; left|]. split; [apply Errorf_handling | done]. }
  destruct (first_lease Leases pk') as [lease|] eqn:Hlease; [|done].
  destruct (Z.eqb_spec (ValidLifetime lease) 0) as [Hzero|Hpos].
  { exists pk', lease, (Log ("Start getting or renewing DHCPv4 lease" +:+ nl) :: tr).
    split; [done|]. split; [done|]. cbn [fst]. by rewrite <- app_assoc. }
  specialize (IH script' nr' pk'). unfold returns_ok in *.
  destruct (renew_loop fuel script' nr' pk') as [tr' e]. cbn [fst snd] in *.
  destruct e as [[msg|]| | |]; try done.
  - destruct IH as (herr & packet & pre & Hin & -> & ->).
    exists herr, packet. eexists. split; [|split; [done|]].
    + apply elem_of_app. right. by right.
    + rewrite app_comm_cons, app_assoc. done.
  - destruct IH as (packet & lease' & pre & Hl & Hz & ->).
    exists packet, lease'. eexists. split; [done|]. split; [done|].
    rewrite app_comm_cons, app_assoc. done.
Qed.

Local Abbreviation renewal_delays := (renewal_delays Leases).
Local Abbreviation pending_after := (pending_after Leases).

Lemma renewal_delays_app pending (tr1 tr2 : list (@event Packet)) :
  renewal_delays pending (tr1 ++ tr2)
  = renewal_delays pending tr1 ++ renewal_delays (pending_after pending tr1) tr2.
Proof.
  revert pending. induction tr1 as [|e tr1 IH]; intros pending; [done|].
  destruct e as [msg| |q|q|d]; simpl; try apply IH.
  destruct pending as [p|]; simpl; by rewrite IH.
Qed.

(** Requests keep this state, and a renewal among them comes after a sleep
    of [timeout - slop]. *)
Lemma requests_delays pending (tr : list (@event Packet)) :
  Forall is_request tr → slept_fixed pending →
  Forall (λ p, p.2 = timeout - slop) (renewal_delays pending tr) ∧
  slept_fixed (pending_after pending tr).
Proof.
  intros Htr. revert pending. induction Htr as [|e tr He Htr IH]; intros pending Hp.
  - split; [constructor | done].
  - destruct e as [msg| |q|q|d]; simpl in *; try done; try by apply IH.
    assert (slept_fixed None) as Hnone by (intros p [=]).
    destruct pending as [p|]; [|by apply IH].
    split; [|by apply IH]. constructor; [by apply Hp | by apply IH].
Qed.

Lemma renew_loop_delays fuel script nr pk pending :
  slept_fixed pending →
  Forall (λ p, p.2 = timeout - slop)
         (renewal_delays pending (renew_loop fuel script nr pk).1).
Proof.
  revert script nr pk pending.
  induction fuel as [|fuel IH]; intros script nr pk pending Hp; [constructor|].
  rewrite renew_loop_S.
  pose proof (retries_trace script 0 nr pk) as Htr.
  destruct (retries script 0 nr pk) as [tr r]. cbn [fst] in Htr.
  destruct (requests_delays pending tr Htr Hp) as [Hdelays Hafter].
  set (start := Log ("Start getting or renewing DHCPv4 lease" +:+ nl)).
  assert (∀ rest, renewal_delays pending ((start :: tr) ++ rest)
                  = renewal_delays pending tr
                    ++ renewal_delays (pending_after pending tr) rest) as Happ.
  { intros rest. simpl. apply renewal_delays_app. }
  assert (Forall (λ p, p.2 = timeout - slop) (renewal_delays pending (start :: tr)))
    as Hblocked by done.
  destruct r as [[[[|[p e|herr] script'] nr'] pk']|]; cbn [fst]; try done.
  destruct herr as [e|]; cbn [fst].
  { rewrite Happ. apply Forall_app. split; [done|]. simpl. constructor. }
  destruct (first_lease Leases pk') as [lease|] eqn:Hlease; cbn [fst].
  2: { rewrite Happ. apply Forall_app. split; [done|]. simpl. constructor. }
  destruct (ValidLifetime lease =? 0); cbn [fst].
  { rewrite <- app_assoc, Happ. apply Forall_app. split; [done|]. simpl. constructor. }
  specialize (IH script' nr' pk' (Some (ValidLifetime lease, 0 + (timeout - slop)))).
  destruct (renew_loop fuel script' nr' pk') as [tr' e]. cbn [fst] in *.
  rewrite <- app_assoc, Happ. apply Forall_app. split; [done|].
  simpl. rewrite Hlease. simpl. apply IH. intros p [= <-]. simpl. lia.
Qed.

End LeaseProofs.

Section LeaseClaims.
Import GoStrings Dhclient LeaseSpec.
Local Open Scope Z_scope.
Context {Packet : Type} (Leases : Packet → list Lease) (mac name : string).

(** C1, as the code has it. Whatever the lifetime of the lease that was
    applied, the renewal that follows it comes after a sleep of
    [timeout - slop], five seconds: for a lifetime [T] above the margin
    [slop] this is never later than [T], and it is as late as [T - slop] only
    when [T] is at most [timeout]. *)
Theorem renewal_after_fixed_sleep (newV4 : option string) (script : list reply) :
  Forall (λ p, p.2 = timeout - slop ∧
               (slop < p.1 → p.2 ≤ p.1 ∧ (p.1 - slop ≤ p.2 ↔ p.1 ≤ timeout)))
         (renewal_delays Leases None (dhclient4 Leases mac name newV4 script).1).
Proof.
  eapply Forall_impl.
  - unfold dhclient4. destruct newV4 as [err|]; [constructor|].
    apply renew_loop_delays. intros p [=].
  - intros [T d]. simpl. intros ->. unfold timeout, slop, Second. lia.
Qed.


(** C10. Once the client is there, a run of [dhclient4] that returns an
    error returns the error of [HandlePacket], wrapped; a run that returns
    nil has just applied a lease of lifetime 0; the rounds of the outer loop
    never outnumber the answers. The inner loop does not give up: after any
    number of failed requests below 2^63 it makes the next one and leaves
    with its answer. *)
Theorem dhclient4_returns (script : list reply) :
  match (dhclient4 Leases mac name None script).2 with
  | Returned (Some msg) =>
      ∃ herr packet pre,
        HandleReply (Some herr) ∈ script ∧
        msg = "error handling pakcet: " +:+ herr ∧
        (dhclient4 Leases mac name None script).1 = pre ++ [HandlePacket packet]
  | Returned None =>
      ∃ packet lease pre,
        first_lease Leases packet = Some lease ∧ ValidLifetime lease = 0 ∧
        (dhclient4 Leases mac name None script).1
        = pre ++ [HandlePacket packet;
                  Log (Sprintf "%v: server returned infinite lease." [name] +:+ nl)]
  | Panicked | Blocked => True
  | OutOfFuel => False
  end ∧
  ∀ (fs : list (option Packet * client_error)) p rest needsRequest packet,
    Z.of_nat (List.length fs) < 2 ^ 63 →
    (retries mac ((failed <$> fs) ++ ClientReply p None :: rest) 0 needsRequest packet).2
    = Some (rest, false, p).
Proof.
  split.
  - unfold dhclient4.
    pose proof (renew_loop_returns Leases mac name (S (List.length script)) script true None)
      as Hret.
    pose proof (renew_loop_fuel Leases mac name (S (List.length script)) script true None)
      as Hfuel.
    unfold returns_ok in Hret.
    destruct (renew_loop Leases mac name (S (List.length script)) script true None)
      as [tr e]. cbn [fst snd] in *.
    destruct e as [[msg|]| | |]; try done. apply Hfuel; [lia | done].
  - intros fs p rest nr pk Hlen. apply retries_after_failures; lia.
Qed.

End LeaseClaims.

Section LeaseExamples.
Import GoStrings Dhclient LeaseSpec.
Local Open Scope Z_scope.

(** C1, as the specification has it, fails: after a lease of one hour the
    renewal comes after five seconds of sleep, not after 3590. *)
Lemma renewal_deadline_counterexample :
  renewal_delays id None (dhclient4 id "00:11:22:33:44:55" "wlan0" None script_hour).1
  = [(3600 * Second, 5 * Second)] ∧
  ¬ renews_at_deadline id (dhclient4 id "00:11:22:33:44:55" "wlan0" None script_hour).1.
Proof.
  split; [reflexivity|].
  unfold renews_at_deadline.
  replace (renewal_delays id None _) with [(3600 * Second, 5 * Second)] by reflexivity.
  intros H. apply Forall_cons in H as [H _]. unfold slop, Second in H. simpl in H. lia.
Qed.


Lemma dhclient4_returns_witness :
  (retries (Packet := list Lease) "00:11:22:33:44:55" script_infinite 0 true None).2
  = Some ([HandleReply None; ClientReply (Some (lease_of (60 * Second))) None],
          false, Some (lease_of 0)).
Proof.
  refine (proj2 (dhclient4_returns id "00:11:22:33:44:55" "wlan0" [])
            [(None, {| message := "i/o timeout"; is_timeout := true |});
             (None, {| message := "network is down"; is_timeout := false |})]
            (Some (lease_of 0)) _ true None _).
  simpl. lia.
Defined.

End LeaseExamples.

(** * Further properties *)

(** ** The scan parser *)

Section ScanMoreProofs.
Import GoStrings Regexp Wifi ScanSpec WifiMore.
Variable o : bytes.

Local Abbreviation body := (parse_cell o (cells o) (essids o) (encKeyOpts o)).
Local Abbreviation loop := (parse_loop o (cells o) (essids o) (encKeyOpts o)).

(** A loop that returns has read an SSID for every block it went through. *)
Lemma parse_loop_essids n i st st' :
  loop n i st = Ok st' → ∀ j, i ≤ j < i + n → is_Some (essid_of_block o j).
Proof.
  revert i st. induction n as [|n IH]; intros i st Hloop j Hj; [lia|].
  rewrite parse_loop_S in Hloop.
  destruct (body i st) as [st1|p] eqn:Hbody; [|done].
  rewrite result_bind_Ok in Hloop.
  destruct (decide (j = i)) as [->|Hne].
  - destruct (essid_of_block o i) as [e|] eqn:He; [done|].
    destruct (parse_cell_no_essid o i st He) as [H|H]; congruence.
  - apply (IH _ _ Hloop). lia.
Qed.

Lemma parse_essids res :
  parseIwlistOut o = Ok res → ∀ i, i < List.length (cells o) → is_Some (essid_of_block o i).
Proof.
  unfold parseIwlistOut. fold (cells o) (essids o) (encKeyOpts o).
  destruct (cells o) as [|c cs] eqn:Hcells; [simpl; intros; lia|].
  rewrite <- Hcells.
  destruct (loop _ _ _) as [st|p] eqn:Hloop; [|done].
  intros _ i Hi. apply (parse_loop_essids _ _ _ _ Hloop). lia.
Qed.

(** Among the blocks with a given SSID there is a first one. *)
Lemma first_block_exists i e :
  essid_of_block o i = Some e → ∃ j, j ≤ i ∧ first_block o j e.
Proof.
  induction i as [i IH] using lt_wf_ind. intros He.
  destruct (decide (Exists (λ j, essid_of_block o j = Some e) (seq 0 i))) as [Hex|Hno].
  - apply Exists_exists in Hex as (j & Hj%elem_of_seq & Hje).
    destruct (IH j) as (k & Hk & Hfirst); [lia | done |]. exists k. split; [lia | done].
  - exists i. split; [lia|]. split; [done|]. intros j Hj Hje. apply Hno.
    apply Exists_exists. exists j. split; [apply elem_of_seq; lia | done].
Qed.

(** A scan that returns has a record for every first block. *)
Lemma parse_first_block_record res i e :
  parseIwlistOut o = Ok res → i < List.length (cells o) → first_block o i e →
  ∃ r, r ∈ res ∧ Essid r = e ∧ block_record o i r.
Proof.
  intros Hparse Hi Hfirst.
  destruct (parse_records o res Hparse) as (_ & _ & Hres & Hall).
  destruct (Hall i e Hi Hfirst) as (r & K & Hr).
  destruct (parse_cell_alone o i e K [r] (proj1 Hfirst) Hr) as [sec [= ->]].
  exists {| Essid := e; AuthSuite := sec |}.
  split; [|split; [done | by exists K]].
  apply Hres. exists i. split; [done|]. split; [done | by exists K].
Qed.

Lemma parse_cell_order i st st' :
  body i st = Ok st' → parsed_up_to o i st → in_block_order o st.2 → in_block_order o st'.2.
Proof.
  destruct st as [K res]. intros Hbody (Hknown & Hres & _ & _ & _) Hord.
  simpl in Hknown, Hres, Hord.
  destruct (essid_of_block o i) as [e|] eqn:He; last first.
  { destruct (parse_cell_no_essid o i (K, res) He) as [H|H]; rewrite H in Hbody; done. }
  destruct (known K e) eqn:Hk.
  - rewrite (parse_cell_known o i e K res He Hk) in Hbody. by injection Hbody as <-.
  - rewrite (parse_cell_fresh o i e K res He Hk) in Hbody.
    destruct (body i (∅, [])) as [[K0 rs]|p] eqn:Halone; [|done].
    injection Hbody as <-. simpl.
    destruct (parse_cell_alone o i e K0 rs He Halone) as [sec ->].
    assert (first_block o i e) as Hfirst.
    { split; [done|]. intros j Hj Hje.
      assert (known K e = true) by (apply Hknown; eauto). congruence. }
    intros p1 p2 r1 r2 i1 i2 Hp Hr1 Hr2 Hi1 Hi2.
    assert (p1 < List.length res) as Hp1.
    { apply lookup_lt_Some in Hr2. rewrite length_app in Hr2. simpl in Hr2. lia. }
    rewrite lookup_app_l in Hr1 by done.
    destruct (decide (p2 < List.length res)) as [Hp2|Hp2].
    + rewrite lookup_app_l in Hr2 by done. exact (Hord p1 p2 r1 r2 i1 i2 Hp Hr1 Hr2 Hi1 Hi2).
    + rewrite lookup_app_r in Hr2 by lia.
      destruct (p2 - List.length res) as [|k]; [|by destruct k].
      injection Hr2 as <-. simpl in Hi2.
      rewrite (first_block_unique o _ _ _ Hi2 Hfirst).
      assert (r1 ∈ res) as Hin by (by eapply list_elem_of_lookup_2).
      apply Hres in Hin as (j & Hj & Hfirst1 & _).
      by rewrite (first_block_unique o _ _ _ Hi1 Hfirst1).
Qed.

Lemma parse_loop_order n i st st' :
  loop n i st = Ok st' → parsed_up_to o i st → in_block_order o st.2 → in_block_order o st'.2.
Proof.
  revert i st. induction n as [|n IH]; intros i st Hloop Hinv Hord.
  - by injection Hloop as <-.
  - rewrite parse_loop_S in Hloop.
    destruct (body i st) as [st1|p] eqn:Hbody; [|done].
    rewrite result_bind_Ok in Hloop. apply (IH _ _ Hloop).
    + by eapply parse_cell_step.
    + by eapply parse_cell_order.
Qed.

Lemma parse_order res : parseIwlistOut o = Ok res → in_block_order o res.
Proof.
  unfold parseIwlistOut. fold (cells o) (essids o) (encKeyOpts o).
  destruct (cells o) as [|c cs] eqn:Hcells.
  - intros [= <-] p1 p2 r1 r2 i1 i2 _ Hr1. by rewrite lookup_nil in Hr1.
  - rewrite <- Hcells.
    destruct (loop _ _ _) as [st|p] eqn:Hloop; [|done]. intros [= <-].
    apply (parse_loop_order _ _ _ _ Hloop); [apply parsed_up_to_start|].
    intros p1 p2 r1 r2 i1 i2 _ Hr1. simpl in Hr1. by rewrite lookup_nil in Hr1.
Qed.

End ScanMoreProofs.

Section ScanMore.
Import GoStrings Regexp Wifi ScanSpec WifiMore.

(** X1. The SSIDs of a scan that returns are the SSIDs of its blocks: every
    record has the SSID of a block, and every block has its SSID in a
    record. *)
Theorem parse_ssids_of_blocks (o : bytes) (res : list WifiOption) (e : string) :
  parseIwlistOut o = Ok res →
  e ∈ Essid <$> res ↔ ∃ i, i < List.length (cells o) ∧ essid_of_block o i = Some e.
Proof.
  intros Hparse. destruct (parse_records o res Hparse) as (_ & _ & Hres & _). split.
  - intros (r & -> & (i & Hi & [He _] & _)%Hres)%list_elem_of_fmap. eauto.
  - intros (i & Hi & He).
    destruct (first_block_exists o i e He) as (j & Hj & Hfirst).
    destruct (parse_first_block_record o res j e Hparse) as (r & Hr & <- & _);
      [lia | done |].
    by apply list_elem_of_fmap_2.
Qed.

(** X2. The records of a scan come in the order in which their SSIDs appear
    first among the blocks. *)
Theorem parse_keeps_block_order (o : bytes) (res : list WifiOption)
    (p1 p2 : nat) (r1 r2 : WifiOption) (i1 i2 : nat) :
  parseIwlistOut o = Ok res →
  res !! p1 = Some r1 → res !! p2 = Some r2 →
  first_block o i1 (Essid r1) → first_block o i2 (Essid r2) →
  p1 < p2 → i1 < i2.
Proof.
  intros Hparse Hr1 Hr2 Hi1 Hi2 Hp. by eapply (parse_order o res Hparse p1 p2).
Qed.

(** X3. A scan that returns is empty exactly when the text has no block. *)
Theorem parse_empty_iff_no_cell (o : bytes) (res : list WifiOption) :
  parseIwlistOut o = Ok res → res = [] ↔ cells o = [].
Proof.
  intros Hparse. split.
  - intros ->. destruct (cells o) as [|c cs] eqn:Hcells; [done|]. exfalso.
    assert (0 < List.length (cells o)) as H0 by (rewrite Hcells; simpl; lia).
    destruct (parse_essids o [] Hparse 0 H0) as [e He].
    destruct (first_block_exists o 0 e He) as (j & Hj & Hfirst).
    destruct (parse_first_block_record o [] j e Hparse) as (r & Hr & _); [lia | done |].
    by apply elem_of_nil in Hr.
  - intros Hcells. destruct (parse_records o res Hparse) as (_ & Hlen & _).
    rewrite Hcells in Hlen. destruct res; [done | simpl in Hlen; lia].
Qed.

(** X4. A block without its ESSID line, or whose ESSID line has no colon,
    makes the scan panic: so does every text with fewer ESSID lines than
    blocks. *)
Theorem parse_panics_without_essid (o : bytes) (i : nat) :
  i < List.length (cells o) → essid_of_block o i = None →
  ∃ p, parseIwlistOut o = Panic p.
Proof.
  intros Hi He. destruct (parseIwlistOut o) as [res|p] eqn:Hparse; [|by exists p].
  destruct (parse_essids o res Hparse i Hi) as [e He']. congruence.
Qed.

End ScanMore.

(** ** Strings, matches and the other functions of package [wifi] *)

Section StringProofs.
Import GoStrings.

Lemma to_bytes_of_bytes (b : bytes) : to_bytes (of_bytes b) = b.
Proof. apply list_ascii_of_string_of_list_ascii. Qed.

(** The pieces of a split: there is a first one, and none holds the
    separator. *)
Lemma split_bytes_cons sep s : ∃ p ps, split_bytes sep s = p :: ps.
Proof.
  induction s as [|c s (p & ps & IH)]; simpl; [by eauto|].
  destruct (Ascii.eqb c sep); [by eauto|]. rewrite IH. eauto.
Qed.

Lemma split_bytes_no_sep sep s : Forall (λ p, sep ∉ p) (split_bytes sep s).
Proof.
  induction s as [|c s IH]; simpl.
  - constructor; [apply not_elem_of_nil | constructor].
  - destruct (Ascii.eqb_spec c sep) as [->|Hne].
    + constructor; [apply not_elem_of_nil | done].
    + destruct (split_bytes sep s) as [|p ps]; inversion IH; subst.
      * constructor; [|done]. by intros [?|?%elem_of_nil]%elem_of_cons.
      * constructor; [|done]. by intros [?|?]%elem_of_cons.
Qed.

(** The first piece of a text that starts with another byte than the
    separator starts with this byte. *)
Lemma split_bytes_head sep c s :
  c ≠ sep → ∃ p ps, split_bytes sep (c :: s) = (c :: p) :: ps.
Proof.
  intros Hne. simpl. destruct (Ascii.eqb_spec c sep) as [|_]; [done|].
  destruct (split_bytes_cons sep s) as (p & ps & ->). eauto.
Qed.

Lemma Split_lookup s sep k field :
  Split s sep !! k = Some field → sep ∉ to_bytes field.
Proof.
  unfold Split. rewrite list_lookup_fmap.
  destruct (split_bytes sep (to_bytes s) !! k) as [p|] eqn:Hp; [|done].
  intros [= <-]. rewrite to_bytes_of_bytes.
  by apply (Forall_lookup_1 _ _ _ _ (split_bytes_no_sep sep (to_bytes s)) Hp).
Qed.

(** What is left of a text that is trimmed at the left is a suffix that does
    not start with a byte of the cutset. *)
Lemma trim_left_suffix cutset s : ∃ pre, s = pre ++ trim_left cutset s.
Proof.
  induction s as [|c s [pre IH]]; simpl; [by exists []|].
  destruct (in_cutset cutset c); [|by exists []].
  exists (c :: pre). simpl. by f_equal.
Qed.

Lemma trim_left_head cutset s c :
  head (trim_left cutset s) = Some c → in_cutset cutset c = false.
Proof.
  induction s as [|d s IH]; simpl; [done|].
  destruct (in_cutset cutset d) eqn:Hd; [done|]. simpl. by intros [= <-].
Qed.

Lemma trim_left_id cutset s :
  (∀ c, head s = Some c → in_cutset cutset c = false) → trim_left cutset s = s.
Proof. destruct s as [|c s]; simpl; [done|]. intros H. by rewrite (H c). Qed.

(** The bytes of a trimmed string: a part of the string that neither starts
    nor ends with a byte of the cutset. *)
Lemma Trim_bytes s cutset :
  ∃ pre post, to_bytes s = pre ++ to_bytes (Trim s cutset) ++ post.
Proof.
  unfold Trim. rewrite to_bytes_of_bytes.
  destruct (trim_left_suffix cutset (to_bytes s)) as [pre Hpre].
  destruct (trim_left_suffix cutset (rev (trim_left cutset (to_bytes s)))) as [post Hpost].
  exists pre, (rev post). rewrite <- rev_app_distr, <- Hpost, rev_involutive. done.
Qed.

Lemma Trim_head s cutset c :
  head (to_bytes (Trim s cutset)) = Some c → in_cutset cutset c = false.
Proof.
  unfold Trim. rewrite to_bytes_of_bytes.
  set (t := trim_left cutset (to_bytes s)).
  destruct (trim_left_suffix cutset (rev t)) as [post Hpost].
  set (u := trim_left cutset (rev t)) in *.
  assert (t = rev u ++ rev post) as Ht.
  { rewrite <- rev_app_distr, <- Hpost. by rewrite rev_involutive. }
  intros Hc. apply (trim_left_head cutset (to_bytes s)). fold t. rewrite Ht.
  destruct (rev u); [done|]. done.
Qed.

Lemma Trim_last s cutset c :
  last (to_bytes (Trim s cutset)) = Some c → in_cutset cutset c = false.
Proof.
  unfold Trim. rewrite to_bytes_of_bytes.
  destruct (trim_left cutset (rev (trim_left cutset (to_bytes s)))) as [|d u] eqn:Hu;
    [done|].
  simpl. rewrite last_snoc. intros [= <-].
  apply (trim_left_head cutset (rev (trim_left cutset (to_bytes s)))). by rewrite Hu.
Qed.

Lemma Trim_no_sep s cutset (sep : ascii) :
  sep ∉ to_bytes s → sep ∉ to_bytes (Trim s cutset).
Proof.
  intros Hno Hin. destruct (Trim_bytes s cutset) as (pre & post & Heq).
  apply Hno. rewrite Heq. apply elem_of_app. right. apply elem_of_app. by left.
Qed.
End StringProofs.

Section MatchProofs.
Import GoStrings Regexp Wifi WifiMore.

Lemma all_matches_as_by re prev s pos skip pe :
  all_matches re prev s pos skip pe = all_matches_by (match_here re) prev s pos skip pe.
Proof.
  revert prev pos skip pe. induction s as [|c s IH]; intros prev pos skip pe.
  - destruct skip; [|done]. simpl. by destruct (match_here re prev []) as [[|n]|].
  - destruct skip as [|skip]; simpl; [|apply IH].
    destruct (match_here re prev (c :: s)) as [[|n]|]; by rewrite IH.
Qed.

(** The matches start at increasing positions of the text, after the bytes
    to be skipped. *)
Lemma all_matches_by_starts m prev s pos skip pe :
  Forall (λ loc, pos + skip ≤ loc.1 ∧ loc.1 ≤ pos + List.length s)
         (all_matches_by m prev s pos skip pe) ∧
  increasing_starts (all_matches_by m prev s pos skip pe).
Proof.
  revert prev pos skip pe. induction s as [|c s IH]; intros prev pos skip pe.
  - destruct skip as [|skip]; simpl; [|by split; [constructor|]].
    destruct (m prev []) as [[|n]|]; simpl.
    + case_bool_decide; simpl; (split; [|by repeat constructor]);
        repeat constructor; simpl; lia.
    + split; [|by repeat constructor]. repeat constructor; simpl; lia.
    + split; [constructor | done].
  - destruct skip as [|skip]; simpl.
    2: { destruct (IH (Some c) (S pos) skip pe) as [Hb Hs]. split; [|done].
         eapply Forall_impl; [exact Hb|]. simpl. intros loc. lia. }
    destruct (m prev (c :: s)) as [[|n]|]; simpl.
    + destruct (IH (Some c) (S pos) 0 (Some pos)) as [Hb Hs].
      assert (Forall (λ loc : nat * nat, pos + 0 ≤ loc.1 ∧ loc.1 ≤ pos + S (List.length s))
                (all_matches_by m (Some c) s (S pos) 0 (Some pos))) as Hb'.
      { eapply Forall_impl; [exact Hb|]. simpl. intros loc. lia. }
      case_bool_decide; simpl; [done|]. split.
      * constructor; [simpl; lia | done].
      * split; [|done]. eapply Forall_impl; [exact Hb|]. simpl. intros loc. lia.
    + destruct (IH (Some c) (S pos) n (Some (pos + S n))) as [Hb Hs]. split.
      * constructor; [simpl; lia|].
        eapply Forall_impl; [exact Hb|]. simpl. intros loc. lia.
      * split; [|done]. eapply Forall_impl; [exact Hb|]. simpl. intros loc. lia.
    + destruct (IH (Some c) (S pos) 0 pe) as [Hb Hs]. split; [|done].
      eapply Forall_impl; [exact Hb|]. simpl. intros loc. lia.
Qed.

(** Every match reported is a match: the matcher answers with its length at
    the position where it starts. *)
Lemma all_matches_by_sound m prev s pos skip pe :
  Forall (λ loc, pos ≤ loc.1 ∧
                 ∃ prev', m prev' (drop (loc.1 - pos) s) = Some (loc.2 - loc.1))
         (all_matches_by m prev s pos skip pe).
Proof.
  revert prev pos skip pe. induction s as [|c s IH]; intros prev pos skip pe.
  - destruct skip as [|skip]; simpl; [|constructor].
    destruct (m prev []) as [[|n]|] eqn:Hm; simpl.
    + case_bool_decide; simpl; repeat constructor; simpl.
      exists prev. by rewrite Nat.sub_diag.
    + repeat constructor; simpl. exists prev.
      rewrite Nat.sub_diag. simpl. rewrite Hm. f_equal. lia.
    + constructor.
  - assert (∀ prev' pos' skip' pe',
              pos' = S pos →
              Forall (λ loc, pos ≤ loc.1 ∧
                       ∃ prev'', m prev'' (drop (loc.1 - pos) (c :: s)) = Some (loc.2 - loc.1))
                     (all_matches_by m prev' s pos' skip' pe')) as Hrest.
    { intros prev' pos' skip' pe' ->.
      eapply Forall_impl; [apply (IH prev' (S pos) skip' pe')|]. simpl.
      intros loc (Hle & prev'' & Hm). split; [lia|]. exists prev''.
      replace (loc.1 - pos) with (S (loc.1 - S pos)) by lia. done. }
    destruct skip as [|skip]; simpl; [|by apply Hrest].
    destruct (m prev (c :: s)) as [[|n]|] eqn:Hm; simpl.
    + apply Forall_app. split; [|by apply Hrest].
      case_bool_decide; repeat constructor; simpl.
      exists prev. by rewrite Nat.sub_diag.
    + constructor; [|by apply Hrest]. simpl. split; [done|]. exists prev.
      rewrite Nat.sub_diag. simpl. rewrite Hm. f_equal. lia.
    + by apply Hrest.
Qed.
End MatchProofs.

Section WindowProofs.
Import GoStrings Regexp Wifi ScanSpec WifiMore.
Variable o : bytes.

Lemma cells_starts :
  Forall (λ loc : nat * nat, loc.1 ≤ List.length o) (cells o) ∧ increasing_starts (cells o).
Proof.
  unfold cells, FindAllIndex. rewrite all_matches_as_by.
  destruct (all_matches_by_starts (match_here cellRE) None o 0 0 None) as [Hb Hs].
  split; [|done]. eapply Forall_impl; [exact Hb|]. simpl. intros loc. lia.
Qed.

Lemma increasing_starts_adjacent pre (a b : nat * nat) rest :
  increasing_starts (pre ++ a :: b :: rest) → a.1 < b.1.
Proof.
  induction pre as [|x pre IH]; simpl.
  - intros [Ha _]. by apply Forall_cons in Ha as [? _].
  - intros [_ H]. by apply IH.
Qed.

(** The windows of the blocks from the block [length pre] on, put end to
    end, are the text from the start of that block on. *)
Lemma windows_from pre cs :
  cells o = pre ++ cs →
  concat (block_window o <$> seq (List.length pre) (List.length cs))
  = match cs with
    | [] => []
    | c :: _ => drop c.1 o
    end.
Proof.
  destruct cells_starts as [Hbound Hinc]. revert pre.
  induction cs as [|c cs IH]; intros pre Hcells; [done|].
  assert (cells o !! List.length pre = Some c) as Hc.
  { rewrite Hcells. by rewrite list_lookup_middle. }
  assert (cells o !! S (List.length pre) = head cs) as Hnext.
  { rewrite Hcells. rewrite lookup_app_r by lia.
    replace (S (List.length pre) - List.length pre) with 1 by lia. by destruct cs. }
  assert (c.1 ≤ List.length o) as Hlen.
  { rewrite Forall_forall in Hbound. apply Hbound.
    by eapply list_elem_of_lookup_2. }
  specialize (IH (pre ++ [c])). rewrite length_app in IH. simpl in IH.
  replace (List.length pre + 1) with (S (List.length pre)) in IH by lia.
  cbn [List.length seq fmap list_fmap concat].
  rewrite IH by (by rewrite <- app_assoc).
  unfold block_window. rewrite Hc, Hnext. unfold slice.
  destruct cs as [|c' cs]; simpl.
  - rewrite app_nil_r. apply take_ge. rewrite length_drop. lia.
  - assert (c.1 < c'.1) as Hlt.
    { rewrite Hcells in Hinc. by apply increasing_starts_adjacent in Hinc. }
    replace (drop c'.1 o) with (drop (c'.1 - c.1) (drop c.1 o)).
    + apply take_drop.
    + rewrite drop_drop. f_equal. lia.
Qed.
End WindowProofs.

Section WifiMoreClaims.
Import GoStrings Regexp Wifi ScanSpec WifiMore.

(** X6. No SSID of a scan holds a colon, and none starts or ends with a
    double quote or a line feed: the SSID is cut at the first colon of its
    line. *)
Theorem parse_ssid_shape (o : bytes) (res : list WifiOption) (r : WifiOption) :
  parseIwlistOut o = Ok res → r ∈ res →
  (":"%char ∉ to_bytes (Essid r)) ∧
  (∀ c, head (to_bytes (Essid r)) = Some c ∨ last (to_bytes (Essid r)) = Some c →
        c ≠ "034"%char ∧ c ≠ "010"%char).
Proof.
  intros Hparse Hr.
  destruct (parse_records o res Hparse) as (_ & _ & Hres & _).
  apply Hres in Hr as (i & _ & [He _] & _).
  unfold essid_of_block in He.
  destruct (essids o !! i) as [line|]; simpl in He; [|done].
  destruct (Split (of_bytes line) ":" !! 1) as [field|] eqn:Hfield; simpl in He; [|done].
  injection He as He. rewrite <- He. split.
  - apply Trim_no_sep. by eapply Split_lookup.
  - intros c Hc.
    assert (in_cutset (dq +:+ nl) c = false) as Hcut.
    { destruct Hc as [Hc|Hc]; [by eapply Trim_head | by eapply Trim_last]. }
    split; intros ->; done.
Qed.

(** X7. The windows of the blocks, put end to end in the order of the
    blocks, are the text from the start of the first block on: no byte after
    that start is outside every window, and none is in two of them. *)
Theorem windows_partition (o : bytes) (c : nat * nat) :
  cells o !! 0 = Some c →
  concat (block_window o <$> seq 0 (List.length (cells o))) = drop c.1 o.
Proof.
  intros Hc. pose proof (windows_from o [] (cells o) eq_refl) as Hw.
  change (List.length (@nil (nat * nat))) with 0 in Hw. rewrite Hw.
  destruct (cells o); [done|]. by injection Hc as ->.
Qed.

(** X8. [parseIwconfig] does not panic and gives one name for every line
    that matches; a name is not empty, starts with a letter or a digit and
    holds no space. *)
Theorem parseIwconfig_names (o : bytes) :
  ∃ res, parseIwconfig o = Some res ∧
         List.length res = List.length (FindAll_by iwconfigRE o) ∧
         Forall (λ name, ∃ c rest, to_bytes name = c :: rest ∧ is_alnum c = true ∧
                                   " "%char ∉ to_bytes name) res.
Proof.
  unfold parseIwconfig.
  assert (Forall (λ t, ∃ c t', t = c :: t' ∧ is_alnum c = true) (FindAll_by iwconfigRE o))
    as Htexts.
  { unfold FindAll_by. apply Forall_fmap.
    eapply Forall_impl; [apply (all_matches_by_sound iwconfigRE None o 0 0 None)|].
    simpl. intros [a b] (_ & prev' & Hm). simpl in *. rewrite Nat.sub_0_r in Hm.
    unfold slice. unfold iwconfigRE in Hm.
    destruct (at_begin_line prev'); [|done].
    destruct (drop a o) as [|c s']; [done|].
    destruct (is_alnum c) eqn:Hc; [|done].
    destruct (star _ _ _ _) as [n|]; [|done]. injection Hm as <-.
    exists c, (take n s'). done. }
  revert Htexts. generalize (FindAll_by iwconfigRE o) as texts.
  assert (∀ texts acc,
            Forall (λ t, ∃ c t', t = c :: t' ∧ is_alnum c = true) texts →
            Forall (λ name, ∃ c rest, to_bytes name = c :: rest ∧ is_alnum c = true ∧
                                      " "%char ∉ to_bytes name) acc →
            ∃ res, iwconfig_loop texts acc = Some res ∧
                   List.length res = List.length acc + List.length texts ∧
                   Forall (λ name, ∃ c rest, to_bytes name = c :: rest ∧
                                             is_alnum c = true ∧
                                             " "%char ∉ to_bytes name) res) as Hloop.
  { induction texts as [|t texts IH]; intros acc Htexts Hacc; simpl.
    - exists acc. split; [done|]. split; [lia | done].
    - apply Forall_cons in Htexts as [(c & t' & -> & Hc) Htexts].
      assert (c ≠ " "%char) as Hsp by (intros ->; done).
      unfold Split. rewrite to_bytes_of_bytes.
      destruct (split_bytes_head " " c t' Hsp) as (p & ps & Hsplit).
      pose proof (split_bytes_no_sep " " (c :: t')) as Hno. rewrite Hsplit in *.
      apply Forall_cons in Hno as [Hno _]. simpl.
      destruct (IH (acc ++ [of_bytes (c :: p)]) Htexts) as (res & Hres & Hlen & Hall).
      { apply Forall_app. split; [done|]. constructor; [|done].
        exists c, p. by rewrite to_bytes_of_bytes. }
      exists res. split; [done|]. split; [|done].
      rewrite Hlen, length_app. simpl. lia. }
  intros texts Htexts. destruct (Hloop texts [] Htexts) as (res & ? & ? & ?); [done|].
  by exists res.
Qed.

(** X9. The name that [ScanCurrentWifi] returns for the output of iwgetid is
    a part of that output that neither starts nor ends with a space or a line
    feed; when the command fails it returns the empty name and the error. *)
Theorem ScanCurrentWifi_trimmed (o : bytes) (err : option string) :
  match err with
  | Some e => ScanCurrentWifi o err = ("", Some e)
  | None =>
      (ScanCurrentWifi o err).2 = None ∧
      (∃ pre post, o = pre ++ to_bytes (ScanCurrentWifi o err).1 ++ post) ∧
      (∀ c, head (to_bytes (ScanCurrentWifi o err).1) = Some c ∨
            last (to_bytes (ScanCurrentWifi o err).1) = Some c →
            c ≠ " "%char ∧ c ≠ "010"%char)
  end.
Proof.
  destruct err as [e|]; [done|]. simpl. split; [done|]. split.
  - destruct (Trim_bytes (of_bytes o) (" " +:+ nl)) as (pre & post & Heq).
    rewrite to_bytes_of_bytes in Heq. eauto.
  - intros c Hc.
    assert (in_cutset (" " +:+ nl) c = false) as Hcut.
    { destruct Hc as [Hc|Hc]; [by eapply Trim_head | by eapply Trim_last]. }
    split; intros ->; done.
Qed.
End WifiMoreClaims.

Section ScanMoreExamples.
Import GoStrings Regexp Wifi ScanSpec WifiMore.

Lemma parse_ssids_of_blocks_witness :
  "Cafe" ∈ Essid <$> [{| Essid := "Lab"; AuthSuite := WpaPsk |};
                      {| Essid := "Cafe"; AuthSuite := NoEnc |};
                      {| Essid := "Office"; AuthSuite := WpaEap |}].
Proof.
  refine (proj2 (parse_ssids_of_blocks scan_open_between _ "Cafe" _) _).
  - vm_compute. reflexivity.
  - exists 1. split; [vm_compute; lia | vm_compute; reflexivity].
Defined.

Lemma parse_keeps_block_order_witness : 0 < 2.
Proof.
  refine (parse_keeps_block_order scan_open_between _ 0 2
            {| Essid := "Lab"; AuthSuite := WpaPsk |}
            {| Essid := "Office"; AuthSuite := WpaEap |} 0 2 _ _ _ _ _ _).
  - vm_compute. reflexivity.
  - reflexivity.
  - reflexivity.
  - split; [vm_compute; reflexivity | intros j Hj; lia].
  - split; [vm_compute; reflexivity|].
    intros j Hj. assert (j = 0 ∨ j = 1) as [-> | ->] by lia; by vm_compute.
  - lia.
Defined.

Lemma parse_empty_iff_no_cell_witness :
  [{| Essid := "Home"; AuthSuite := NoEnc |}] = [] ↔ cells scan_home_twice = [].
Proof.
  apply (parse_empty_iff_no_cell scan_home_twice). vm_compute. reflexivity.
Defined.

Lemma parse_panics_without_essid_witness :
  ∃ p, parseIwlistOut scan_without_essid = Panic p.
Proof.
  apply (parse_panics_without_essid scan_without_essid 1).
  - vm_compute. lia.
  - vm_compute. reflexivity.
Defined.


Lemma parse_ssid_shape_witness :
  ":"%char ∉ to_bytes "Guest".
Proof.
  refine (proj1 (parse_ssid_shape scan_colon _ {| Essid := "Guest"; AuthSuite := NoEnc |} _ _)).
  - vm_compute. reflexivity.
  - left.
Defined.

Lemma windows_partition_witness :
  concat (block_window scan_open_between <$> seq 0 (List.length (cells scan_open_between)))
  = drop 0 scan_open_between.
Proof. apply (windows_partition scan_open_between (0, 14)). vm_compute. reflexivity. Defined.
End ScanMoreExamples.

(** ** The profile generator *)

Section ProfileMore.
Import GoStrings Wifi ScanSpec.
Variable passphrase_Run : string → string → option string * option string.

(** X15. [generateConfig] returns an error exactly when the number of its
    arguments is not 1, 2 or 3, or when there are two and [passphrase.Run]
    fails; with an error it returns no profile. *)
Theorem generateConfig_error_iff (a : list string) :
  ((generateConfig passphrase_Run a).2 ≠ None ↔
     ¬ (1 ≤ List.length a ≤ 3) ∨
     (List.length a = 2 ∧ (passphrase_Run (arg a 0) (arg a 1)).2 ≠ None)) ∧
  ((generateConfig passphrase_Run a).2 ≠ None → (generateConfig passphrase_Run a).1 = None).
Proof.
  unfold generateConfig.
  destruct (Nat.eqb_spec (List.length a) 3) as [H3|H3].
  { simpl. split; [|by intros []]. split; [by intros []|]. intros [?|[? _]]; lia. }
  destruct (Nat.eqb_spec (List.length a) 2) as [H2|H2].
  { destruct (passphrase_Run (arg a 0) (arg a 1)) as [conf [e|]]; simpl.
    - split; [|done]. split; [|done]. intros _. by right.
    - split; [|by intros []]. split; [by intros []|]. intros [?|[_ []]]; [lia | done]. }
  destruct (Nat.eqb_spec (List.length a) 1) as [H1|H1].
  { simpl. split; [|by intros []]. split; [by intros []|]. intros [?|[? _]]; lia. }
  simpl. split; [|done]. split; [|done]. intros _. left. lia.
Qed.

(** X16. With an SSID and a passphrase [generateConfig] returns the profile
    of [passphrase.Run] as it is; when [passphrase.Run] fails, the error
    that is returned quotes the SSID and the passphrase in clear. *)
Theorem generateConfig_passphrase (ssid pass : string) :
  match passphrase_Run ssid pass with
  | (conf, None) => generateConfig passphrase_Run [ssid; pass] = (conf, None)
  | (_, Some err) =>
      generateConfig passphrase_Run [ssid; pass]
      = (None, Some ("essid: " +:+ ssid +:+ ", pass: " +:+ pass +:+ " : " +:+ err))
  end.
Proof.
  destruct (passphrase_Run ssid pass) as [conf [err|]] eqn:Hrun;
    unfold generateConfig; cbn [List.length Nat.eqb arg nth]; rewrite Hrun; [|done].
  rewrite <- (string_app_nil_r err) at 2. reflexivity.
Qed.
End ProfileMore.

(** ** The lease loop *)

Section LeaseMoreProofs.
Import GoStrings Dhclient LeaseSpec LeaseMore.
Local Open Scope Z_scope.
Context {Packet : Type} (Leases : Packet → list Lease) (mac name : string).

Local Abbreviation retries := (@retries Packet mac).
Local Abbreviation renew_loop := (renew_loop Leases mac name).

(** Where an event that the first part of a trace does not have sits in the
    whole trace. *)
Lemma app_eq_later {A} (l1 l2 t1 t2 : list A) x :
  l1 ++ l2 = t1 ++ x :: t2 → x ∉ l1 → ∃ t, t1 = l1 ++ t ∧ l2 = t ++ x :: t2.
Proof.
  revert t1. induction l1 as [|y l1 IH]; intros t1 Heq Hx; [by exists t1|].
  destruct t1 as [|z t1]; simpl in Heq.
  - injection Heq as -> _. exfalso. apply Hx. left.
  - injection Heq as -> Heq. destruct (IH t1 Heq) as (t & -> & ->).
    + intros Hin. apply Hx. by right.
    + by exists t.
Qed.

Lemma request_no_solicit i (pk : option Packet) : Solicit ∉ request i false pk.
Proof.
  unfold request. destruct (0 <? i); simpl.
  - intros [?|[?|?%elem_of_nil]%elem_of_cons]%elem_of_cons; done.
  - intros [?|?%elem_of_nil]%elem_of_cons; done.
Qed.

(** Once [needsRequest] is false it stays false, and the loop renews. *)
Lemma retries_renews script i pk :
  (Solicit ∉ (retries script i false pk).1) ∧
  (∀ rest nr pk', (retries script i false pk).2 = Some (rest, nr, pk') → nr = false).
Proof.
  revert i pk. induction script as [|r script IH]; intros i pk; rewrite retries_eq.
  - destruct (-1 <? i); cbn [fst snd].
    + split; [apply request_no_solicit | done].
    + split; [apply not_elem_of_nil | by intros ??? [= _ <- _]].
  - destruct (-1 <? i); cbn [fst snd];
      [|split; [apply not_elem_of_nil | by intros ??? [= _ <- _]]].
    destruct r as [p [e|]|h]; cbn [fst snd].
    + specialize (IH (wrap_int (i + 1)) p).
      destruct (retries script (wrap_int (i + 1)) false p) as [tr r]. cbn [fst snd] in *.
      destruct IH as [IH1 IH2]. split; [|done].
      intros [Hin|[Hin|Hin]%elem_of_cons]%elem_of_app.
      * by apply request_no_solicit in Hin.
      * destruct (failure_log_is_log (Packet:=Packet) mac e) as [msg Hmsg]. congruence.
      * done.
    + split; [apply request_no_solicit | by intros ??? [= _ <- _]].
    + split; [apply request_no_solicit | done].
Qed.

Lemma renew_loop_renews fuel script pk :
  Solicit ∉ (renew_loop fuel script false pk).1.
Proof.
  revert script pk. induction fuel as [|fuel IH]; intros script pk;
    [apply not_elem_of_nil|].
  rewrite renew_loop_S.
  destruct (retries_renews script 0 pk) as [Hno Hnr].
  destruct (retries script 0 false pk) as [tr r]. cbn [fst snd] in *.
  assert (Solicit ∉ Log ("Start getting or renewing DHCPv4 lease" +:+ nl) :: tr) as Hstart.
  { by intros [?|?]%elem_of_cons. }
  destruct r as [[[[|[p e|herr] script'] nr'] pk']|]; cbn [fst]; try done.
  assert (nr' = false) as -> by (by eapply Hnr).
  assert (Solicit ∉ (Log ("Start getting or renewing DHCPv4 lease" +:+ nl) :: tr)
                      ++ [HandlePacket pk']) as Hhandle.
  { intros [?|[?|?%elem_of_nil]%elem_of_cons]%elem_of_app; done. }
  destruct herr as [e|]; [done|].
  destruct (first_lease Leases pk') as [lease|]; [|done].
  destruct (ValidLifetime lease =? 0); cbn [fst].
  { intros [?|[?|?%elem_of_nil]%elem_of_cons]%elem_of_app; done. }
  specialize (IH script' pk').
  destruct (renew_loop fuel script' false pk') as [tr' e]. cbn [fst] in *.
  intros [?|[?|?]%elem_of_cons]%elem_of_app; done.
Qed.

Lemma renew_loop_no_solicit_after_renew fuel script nr pk tr1 q tr2 :
  (renew_loop fuel script nr pk).1 = tr1 ++ Renew q :: tr2 → Solicit ∉ tr2.
Proof.
  revert script nr pk tr1. induction fuel as [|fuel IH]; intros script nr pk tr1.
  { simpl. by destruct tr1. }
  destruct nr; last first.
  { intros Heq. pose proof (renew_loop_renews (S fuel) script pk) as Hno.
    rewrite Heq in Hno. intros Hin. apply Hno.
    apply elem_of_app. right. by right. }
  rewrite renew_loop_S.
  pose proof (retries_no_renew mac script 0 pk q) as Hno.
  destruct (retries script 0 true pk) as [tr r]. cbn [fst snd] in *.
  set (start := Log ("Start getting or renewing DHCPv4 lease" +:+ nl)).
  assert (Renew q ∉ start :: tr) as Hstart by (by intros [?|?]%elem_of_cons).
  assert (∀ l, start :: tr = tr1 ++ Renew q :: tr2 ++ l → False) as Hnever.
  { intros l Heq. apply Hstart. rewrite Heq. apply elem_of_app. right. left. }
  assert (∀ ev, ev ≠ Renew q →
            (start :: tr) ++ [ev] = tr1 ++ Renew q :: tr2 → False) as Hone.
  { intros ev Hev Heq.
    destruct (app_eq_later _ _ _ _ _ Heq Hstart) as (t & _ & Ht).
    destruct t as [|? [|? ?]]; simpl in Ht; congruence. }
  destruct r as [[[[|[p e|herr] script'] nr'] pk']|]; cbn [fst];
    try (intros Heq; exfalso; apply (Hnever []); by rewrite app_nil_r).
  destruct herr as [e|]; cbn [fst];
    [intros Heq; exfalso; by apply (Hone (HandlePacket pk'))|].
  destruct (first_lease Leases pk') as [lease|]; cbn [fst];
    [|intros Heq; exfalso; by apply (Hone (HandlePacket pk'))].
  destruct (ValidLifetime lease =? 0); cbn [fst].
  { rewrite <- app_assoc. intros Heq.
    destruct (app_eq_later _ _ _ _ _ Heq Hstart) as (t & _ & Ht).
    destruct t as [|? [|? [|? ?]]]; simpl in Ht; congruence. }
  specialize (IH script' nr' pk').
  destruct (renew_loop fuel script' nr' pk') as [tr' e]. cbn [fst] in *.
  rewrite <- app_assoc. intros Heq.
  destruct (app_eq_later _ _ _ _ _ Heq Hstart) as (t & _ & Ht).
  destruct t as [|? [|? t]]; simpl in Ht; try congruence.
  injection Ht as _ _ Ht. by eapply IH.
Qed.

(** The packets that the renewals of the inner loop are given: the packet at
    hand, then the packet of each failed answer. *)
Lemma retries_renew_args fs p rest i pk :
  0 ≤ i → i + Z.of_nat (List.length fs) < 2 ^ 63 →
  renew_args (retries ((failed <$> fs) ++ ClientReply p None :: rest) i false pk).1
  = pk :: (fst <$> fs).
Proof.
  assert (∀ j (q : option Packet), renew_args (request j false q) = [q]) as Hreq.
  { intros j q. unfold request. by destruct (0 <? j). }
  revert i pk. induction fs as [|f fs IH]; intros i pk Hi Hlen;
    rewrite retries_eq; (assert ((-1 <? i) = true) as -> by lia).
  - apply Hreq.
  - rewrite length_cons in Hlen. specialize (IH (wrap_int (i + 1)) f.1).
    rewrite wrap_int_small in * by lia.
    rewrite fmap_cons. cbn [app failed].
    destruct (retries _ (i + 1) false f.1) as [tr r]. cbn [fst] in *.
    unfold renew_args in *. rewrite omap_app, Hreq.
    destruct (failure_log_is_log (Packet:=Packet) mac f.2) as [msg ->].
    simpl. f_equal. apply IH; lia.
Qed.

(** When the counter passes the last [int], the loop is left with the
    packet of the last failed answer, and [needsRequest] as it was. *)
Lemma retries_wrap fs f rest i nr pk :
  0 ≤ i → i + Z.of_nat (List.length fs) = 2 ^ 63 - 1 →
  (retries ((failed <$> fs ++ [f]) ++ rest) i nr pk).2 = Some (rest, nr, f.1).
Proof.
  revert i pk. induction fs as [|g fs IH]; intros i pk Hi Hlen;
    rewrite retries_eq; (assert ((-1 <? i) = true) as -> by lia).
  - assert (i = 2 ^ 63 - 1) as -> by (simpl in Hlen; lia).
    cbn [app fmap list_fmap failed].
    assert (wrap_int (2 ^ 63 - 1 + 1) = - 2 ^ 63) as -> by (by vm_compute).
    rewrite retries_eq.
    assert ((-1 <? - 2 ^ 63) = false) as -> by (by vm_compute).
    destruct (request _ _ _); done.
  - rewrite length_cons in Hlen. specialize (IH (wrap_int (i + 1)) g.1).
    rewrite wrap_int_small in * by lia.
    cbn [app fmap list_fmap failed].
    destruct (retries _ (i + 1) nr g.1) as [tr r]. cbn [snd] in *.
    apply IH; lia.
Qed.

(** A run panics only right after it has applied a packet without a
    lease. *)
Lemma renew_loop_panics fuel script nr pk :
  (renew_loop fuel script nr pk).2 = Panicked →
  ∃ pre packet, (renew_loop fuel script nr pk).1 = pre ++ [HandlePacket packet] ∧
                first_lease Leases packet = None.
Proof.
  revert script nr pk. induction fuel as [|fuel IH]; intros script nr pk; [done|].
  rewrite renew_loop_S.
  destruct (retries script 0 nr pk) as [tr r].
  destruct r as [[[[|[p e|herr] script'] nr'] pk']|]; try done.
  destruct herr as [e|]; [done|].
  destruct (first_lease Leases pk') as [lease|] eqn:Hlease; [|by eauto].
  destruct (ValidLifetime lease =? 0); [done|].
  specialize (IH script' nr' pk').
  destruct (renew_loop fuel script' nr' pk') as [tr' e]. cbn [fst snd] in *.
  intros He. destruct (IH He) as (pre & packet & -> & Hnone).
  eexists _, packet. split; [|done]. rewrite app_comm_cons, app_assoc. done.
Qed.
End LeaseMoreProofs.

Section FirstVariantProofs.
Import GoStrings Dhclient LeaseSpec DhclientFirst.
Local Open Scope Z_scope.
Context {Packet : Type} (mac : string) (debug : string → list string).

Local Abbreviation retries1 := (@DhclientFirst.retries Packet mac debug).


End FirstVariantProofs.

Section LeaseMoreClaims.
Import GoStrings Dhclient LeaseSpec LeaseMore.
Local Open Scope Z_scope.
Context {Packet : Type} (Leases : Packet → list Lease) (mac name : string).

(** X10. Once [dhclient4] has called [client.Renew] it never calls
    [client.Solicit] again, whatever the renewals answer. *)
Theorem dhclient4_never_solicits_again (newV4 : option string) (script : list reply)
    (k1 k2 : nat) (q : option Packet) :
  (dhclient4 Leases mac name newV4 script).1 !! k1 = Some (Renew q) →
  (k1 < k2)%nat →
  (dhclient4 Leases mac name newV4 script).1 !! k2 ≠ Some Solicit.
Proof.
  intros Hk1 Hlt Hk2. unfold dhclient4 in *.
  destruct newV4 as [err|]; [by destruct k1|].
  set (run := renew_loop Leases mac name (S (List.length script)) script true None) in *.
  pose proof (take_drop_middle _ _ _ Hk1) as Hsplit.
  apply (renew_loop_no_solicit_after_renew Leases mac name _ _ _ _ _ _ _ (eq_sym Hsplit)).
  apply (list_elem_of_lookup_2 _ (k2 - S k1)%nat). rewrite lookup_drop.
  by replace (S k1 + (k2 - S k1))%nat with k2 by lia.
Qed.

(** X11. A renewal that is tried again is given the packet that came with
    the error of the try before, not the lease that was to be renewed. *)
Theorem retries_renew_with_failed_answer (fs : list (option Packet * client_error))
    (p : option Packet) (rest : list reply) (packet : option Packet) :
  Z.of_nat (List.length fs) < 2 ^ 63 →
  renew_args (retries mac ((failed <$> fs) ++ ClientReply p None :: rest) 0 false packet).1
  = packet :: (fst <$> fs).
Proof. intros Hlen. apply retries_renew_args; lia. Qed.

(** X12. The inner loop is bounded by the range of its counter: entered at
    [i], it is left without success when [2^63 - i] requests in a row have
    failed, with the packet of the last failed answer. *)
Theorem retries_gives_up_at_wrap (fs : list (option Packet * client_error))
    (f : option Packet * client_error) (rest : list reply) (i : Z)
    (needsRequest : bool) (packet : option Packet) :
  0 ≤ i → i + Z.of_nat (List.length fs) = 2 ^ 63 - 1 →
  (retries mac ((failed <$> fs ++ [f]) ++ rest) i needsRequest packet).2
  = Some (rest, needsRequest, f.1).
Proof. apply retries_wrap. Qed.

(** X13. A run of [dhclient4] panics only at [packet.Leases()[0]], right
    after [HandlePacket] has applied a packet that has no lease. *)
Theorem dhclient4_panics_without_lease (newV4 : option string) (script : list reply) :
  (dhclient4 Leases mac name newV4 script).2 = Panicked →
  ∃ pre packet,
    (dhclient4 Leases mac name newV4 script).1 = pre ++ [HandlePacket packet] ∧
    first_lease Leases packet = None.
Proof.
  unfold dhclient4. destruct newV4 as [err|]; [done|]. apply renew_loop_panics.
Qed.
End LeaseMoreClaims.

Section FirstVariantClaims.
Import GoStrings Dhclient LeaseSpec DhclientFirst.
Local Open Scope Z_scope.
Context {Packet : Type} (mac : string) (debug : string → list string).

End FirstVariantClaims.

Section LeaseMoreExamples.
Import GoStrings Dhclient LeaseSpec LeaseMore.
Local Open Scope Z_scope.

Lemma dhclient4_never_solicits_again_witness :
  (dhclient4 id "00:11:22:33:44:55" "wlan0" None script_failed_renewal).1 !! 8%nat
  ≠ Some Solicit.
Proof.
  apply (dhclient4_never_solicits_again id "00:11:22:33:44:55" "wlan0" None
           script_failed_renewal 5 8 (Some (lease_of (60 * Second)))).
  - reflexivity.
  - lia.
Defined.

Lemma retries_renew_with_failed_answer_witness :
  renew_args (retries (Packet := list Lease) "00:11:22:33:44:55"
                (drop 2 script_failed_renewal) 0 false
                (Some (lease_of (60 * Second)))).1
  = [Some (lease_of (60 * Second)); None].
Proof.
  apply (retries_renew_with_failed_answer "00:11:22:33:44:55"
           [(None, {| message := "i/o timeout"; is_timeout := true |})]
           (Some (lease_of 0)) [HandleReply None] (Some (lease_of (60 * Second)))).
  simpl. lia.
Defined.

Lemma retries_gives_up_at_wrap_witness :
  (retries (Packet := list Lease) "00:11:22:33:44:55"
     [ClientReply None (Some {| message := "i/o timeout"; is_timeout := true |});
      ClientReply None (Some {| message := "network is down"; is_timeout := false |});
      HandleReply None]
     (2 ^ 63 - 2) true None).2
  = Some ([HandleReply None], true, None).
Proof.
  apply (retries_gives_up_at_wrap "00:11:22:33:44:55"
           [(None, {| message := "i/o timeout"; is_timeout := true |})]
           (None, {| message := "network is down"; is_timeout := false |})
           [HandleReply None] (2 ^ 63 - 2) true None).
  - lia.
  - simpl. lia.
Defined.

Lemma dhclient4_panics_without_lease_witness :
  ∃ pre packet,
    (dhclient4 id "00:11:22:33:44:55" "wlan0" None script_no_lease).1
    = pre ++ [HandlePacket packet] ∧
    first_lease id packet = None.
Proof.
  apply (dhclient4_panics_without_lease id "00:11:22:33:44:55" "wlan0" None
           script_no_lease).
  reflexivity.
Defined.
End LeaseMoreExamples.

(** ** The registry of services *)

Section SosProofs.
Import GoStrings Sos.

Lemma map_of_insert (h : store) l m : map_of (<[l := m]> h) (Some l) = m.
Proof. unfold map_of. simpl. by rewrite lookup_insert_eq. Qed.

Lemma map_of_insert_ne (h : store) l l' m :
  l ≠ l' → map_of (<[l := m]> h) (Some l') = map_of h (Some l').
Proof. intros Hne. unfold map_of. simpl. by rewrite lookup_insert_ne. Qed.

Lemma fresh_not_registry (s : SosService) (h : store) :
  valid s h → registry s ≠ Some (fresh (dom h)).
Proof.
  intros Hvalid Heq. apply (is_fresh (dom h)).
  apply elem_of_dom. by apply Hvalid.
Qed.
End SosProofs.

Section SosClaims.
Import GoStrings Sos.

(** X17. A name that [Register] has taken reads back with its port, and the
    other names read as before. [Register] takes a name exactly when the
    registry is a map in which the name is not bound. *)
Theorem Register_then_Read (s : SosService) (h h' : store) (serviceName : string)
    (portNum : N) :
  Register s serviceName portNum h = Some (None, h') →
  Read s serviceName h' = (portNum, None) ∧
  (∀ other, other ≠ serviceName → Read s other h' = Read s other h) ∧
  (Read s serviceName h).2 ≠ None ∧ registry s ≠ None.
Proof.
  unfold Register, Read.
  destruct (map_of h (registry s) !! serviceName) as [port|] eqn:Hold; [done|].
  destruct (registry s) as [l|] eqn:Hreg; [|done]. intros [= <-].
  rewrite map_of_insert. split; [by rewrite lookup_insert_eq|]. split; [|done].
  intros other Hne. by rewrite lookup_insert_ne.
Qed.

(** X18. [Register] refuses a name that is bound: it returns the error that
    the name already exists and leaves every map as it is, so the port of
    the name is not replaced. *)
Theorem Register_bound_name (s : SosService) (h : store) (serviceName : string)
    (port portNum : N) :
  Read s serviceName h = (port, None) →
  Register s serviceName portNum h
  = Some (Some (serviceName +:+ " already exists"), h).
Proof.
  unfold Register, Read.
  destruct (map_of h (registry s) !! serviceName) as [port'|]; [|done].
  intros _. reflexivity.
Qed.

(** X19. After [Unregister] the name is not in the registry, whether it was
    bound or not, and the other names read as before. *)
Theorem Unregister_then_Read (s : SosService) (h : store) (serviceName : string) :
  Read s serviceName (Unregister s serviceName h)
  = (0%N, Some (serviceName +:+ " is not in the registry")) ∧
  ∀ other, other ≠ serviceName →
    Read s other (Unregister s serviceName h) = Read s other h.
Proof.
  unfold Unregister, Read. destruct (registry s) as [l|] eqn:Hreg.
  - rewrite map_of_insert. split; [by rewrite lookup_delete_eq|].
    intros other Hne. by rewrite lookup_delete_ne.
  - split; [done|]. done.
Qed.

(** X20. [Unregister] undoes [Register]: a name that was taken and is given
    up leaves the registry with the bindings it had. *)
Theorem Register_then_Unregister (s : SosService) (h h' : store)
    (serviceName : string) (portNum : N) :
  Register s serviceName portNum h = Some (None, h') →
  map_of (Unregister s serviceName h') (registry s) = map_of h (registry s).
Proof.
  unfold Register, Unregister.
  destruct (map_of h (registry s) !! serviceName) as [port|] eqn:Hold; [done|].
  destruct (registry s) as [l|] eqn:Hreg; [|done]. intros [= <-].
  rewrite !map_of_insert. rewrite delete_insert_eq. by apply delete_id.
Qed.

(** X21. [SnapshotRegistry] returns a new map with the bindings of the
    registry: the registry is not changed by the call, and what is later
    registered or unregistered in the service does not show in the
    snapshot. *)
Theorem Snapshot_is_a_copy (s : SosService) (h : store) :
  valid s h →
  let snapshot := (SnapshotRegistry s h).1 in
  let h' := (SnapshotRegistry s h).2 in
  map_of h' snapshot = map_of h (registry s) ∧
  map_of h' (registry s) = map_of h (registry s) ∧
  snapshot ≠ registry s ∧
  (∀ serviceName, map_of (Unregister s serviceName h') snapshot = map_of h (registry s)) ∧
  (∀ serviceName portNum err h'',
     Register s serviceName portNum h' = Some (err, h'') →
     map_of h'' snapshot = map_of h (registry s)).
Proof.
  intros Hvalid. pose proof (fresh_not_registry s h Hvalid) as Hfresh. simpl.
  assert (map_of (<[fresh (dom h) := map_of h (registry s)]> h) (registry s)
          = map_of h (registry s)) as Hsame.
  { destruct (registry s) as [l|] eqn:Hreg; [|done].
    apply map_of_insert_ne. congruence. }
  split; [apply map_of_insert|]. split; [done|]. split; [done|]. split.
  - intros serviceName. unfold Unregister.
    destruct (registry s) as [l|] eqn:Hreg; [|apply map_of_insert].
    rewrite map_of_insert_ne by congruence. apply map_of_insert.
  - intros serviceName portNum err h''. unfold Register.
    destruct (map_of _ (registry s) !! serviceName); [intros [= _ <-]; apply map_of_insert|].
    destruct (registry s) as [l|] eqn:Hreg; [|done]. intros [= _ <-].
    rewrite map_of_insert_ne by congruence. apply map_of_insert.
Qed.

(** X22. On a service whose registry is the nil map, [Read] finds no name,
    [Unregister] does nothing, [SnapshotRegistry] gives an empty map, and
    [Register] panics. *)
Theorem nil_registry (s : SosService) (h : store) (serviceName : string) (portNum : N) :
  registry s = None →
  Read s serviceName h = (0%N, Some (serviceName +:+ " is not in the registry")) ∧
  Unregister s serviceName h = h ∧
  map_of (SnapshotRegistry s h).2 (SnapshotRegistry s h).1 = ∅ ∧
  Register s serviceName portNum h = None.
Proof.
  intros Hnil. unfold Read, Unregister, Register, SnapshotRegistry. rewrite Hnil.
  split; [done|]. split; [done|]. split; [|done]. simpl. by rewrite map_of_insert.
Qed.
End SosClaims.

Section SosExamples.
Import GoStrings Sos.

Lemma Register_then_Read_witness :
  Read service "tftp" (<[0 := <["tftp" := 69%N]> (map_of busy_store (Some 0))]> busy_store)
  = (69%N, None).
Proof.
  refine (proj1 (Register_then_Read service busy_store _ "tftp" 69 _)).
  reflexivity.
Defined.

Lemma Register_bound_name_witness :
  Register service "dhcp" 68 busy_store = Some (Some "dhcp already exists", busy_store).
Proof. apply (Register_bound_name service busy_store "dhcp" 67 68). reflexivity. Defined.

Lemma Register_then_Unregister_witness :
  map_of (Unregister service "tftp"
            (<[0 := <["tftp" := 69%N]> (map_of busy_store (Some 0))]> busy_store))
         (Some 0)
  = map_of busy_store (Some 0).
Proof.
  apply (Register_then_Unregister service busy_store _ "tftp" 69). reflexivity.
Defined.

Lemma Snapshot_is_a_copy_witness :
  map_of (SnapshotRegistry service busy_store).2 (SnapshotRegistry service busy_store).1
  = map_of busy_store (Some 0).
Proof.
  refine (proj1 (Snapshot_is_a_copy service busy_store _)).
  intros l [= <-]. vm_compute. eauto.
Defined.

Lemma nil_registry_witness :
  Register {| registry := None |} "dhcp" 67 ∅ = None.
Proof.
  refine (proj2 (proj2 (proj2 (nil_registry {| registry := None |} ∅ "dhcp" 67 _)))).
  reflexivity.
Defined.
End SosExamples.
